(** * Registry reconciliation tools: [tools/registry-lint.mjs] and
    [tools/rescue-move-by-basename.mjs]

    A shallow embedding of the two command-line tools and of the part of
    the Node.js runtime they call ([String.prototype] methods, [path],
    [fs]), followed by the properties of the registry reconciliation
    engine that the repository's specification states about them.

    What the model takes from outside and where it stops:
    - strings are sequences of code units below 256; a character outside
      the ASCII range is never in the allow-list of [toKebab] and is
      lower-cased as Latin-1;
    - the fields of a registry record are strings or absent, and object
      lookups ([aliasMap[cat]], [categoryMapDeclared[k]]) are own-property
      lookups: a category spelled like a member every object inherits from
      [Object.prototype] ([constructor], [toString], ...) is looked up in
      the table only, where Node.js finds the inherited member.  The
      properties that depend on it are stated for the other categories
      ([own_category]);
    - the file tree is a flat store of regular files and directories keyed
      by their names from the root; a path string names the file its
      segments spell from the working directory: [..] and symbolic links
      are not interpreted, and a slash at the end of the string is dropped
      where the file system would ask for a directory.  The [fs] calls of
      the model are those of the file system on path strings that have no
      [.] or [..] between their slashes and no slash at their end
      ([plain_path]); the properties that depend on it are stated for such
      strings;
    - the parsers ([JSON.parse], the [yaml] package) and the working
      directory come with the host the tool runs on. *)

From Stdlib Require Import Ascii String.
From stdpp Require Import base option list strings gmap pretty.

(** ** Characters and JavaScript string methods *)

Module Js.

(** [WhiteSpace] and [LineTerminator] code units: what [trim] strips and
    what the regular expression class [\s] matches. *)
Definition is_ws (c : ascii) : bool :=
  match nat_of_ascii c with
  | 9 | 10 | 11 | 12 | 13 | 32 | 160 => true
  | _ => false
  end.

Definition is_upper (c : ascii) : bool :=
  let n := nat_of_ascii c in
  (65 <=? n) && (n <=? 90)
  || (192 <=? n) && (n <=? 222) && negb (n =? 215).

(** One code unit of [toLowerCase]. *)
Definition lower_char (c : ascii) : ascii :=
  if is_upper c then ascii_of_nat (nat_of_ascii c + 32) else c.

(** The complement of the class [[^a-zA-Z0-9._/ -]]. *)
Definition allowed (c : ascii) : bool :=
  let n := nat_of_ascii c in
  (97 <=? n) && (n <=? 122) || (65 <=? n) && (n <=? 90)
  || (48 <=? n) && (n <=? 57)
  || (n =? 46) || (n =? 95) || (n =? 47) || (n =? 32) || (n =? 45).

Definition is_hyphen (c : ascii) : bool := nat_of_ascii c =? 45.
Definition is_amp (c : ascii) : bool := nat_of_ascii c =? 38.

Fixpoint drop_ws (l : list ascii) : list ascii :=
  match l with
  | c :: l' => if is_ws c then drop_ws l' else l
  | [] => []
  end.

(** [s.trim()] *)
Definition trim_l (l : list ascii) : list ascii :=
  rev (drop_ws (rev (drop_ws l))).

(** [s.replace(/&/g, "and")] *)
Definition amp_l (l : list ascii) : list ascii :=
  c ← l; if is_amp c then ["a"; "n"; "d"]%char else [c].

(** [s.replace(/[^a-zA-Z0-9._/ -]/g, "")] *)
Definition strip_l (l : list ascii) : list ascii := filter (λ c, allowed c = true) l.

(** [s.replace(/X+/g, "-")] for a character class [X] given as [p]: every
    maximal run of [p]-characters becomes one hyphen.  [inrun] records that
    the previous character belonged to the run being replaced. *)
Fixpoint squeeze_go (p : ascii → bool) (inrun : bool) (l : list ascii) : list ascii :=
  match l with
  | [] => []
  | c :: l' =>
      if p c then
        if inrun then squeeze_go p true l' else "-"%char :: squeeze_go p true l'
      else c :: squeeze_go p false l'
  end.

Definition squeeze (p : ascii → bool) : list ascii → list ascii := squeeze_go p false.

(** [s.toLowerCase()] *)
Definition lower_l (l : list ascii) : list ascii := lower_char <$> l.

Definition chars : string → list ascii := list_ascii_of_string.
Definition str : list ascii → string := string_of_list_ascii.

Definition trim (s : string) : string := str (trim_l (chars s)).
Definition toLowerCase (s : string) : string := str (lower_l (chars s)).

(** [s.startsWith(p)] and [s.endsWith(p)] *)
Fixpoint starts_l (p l : list ascii) : bool :=
  match p, l with
  | [], _ => true
  | a :: p', b :: l' => bool_decide (a = b) && starts_l p' l'
  | _ :: _, [] => false
  end.

Definition startsWith (s p : string) : bool := starts_l (chars p) (chars s).
Definition endsWith (s p : string) : bool := starts_l (rev (chars p)) (rev (chars s)).

(** [s.replace(pat, rep)] with a string pattern: the first occurrence only,
    and none when [pat] does not occur.  (The replacement strings of the
    tools carry no [$], so no replacement pattern is ever expanded.) *)
Fixpoint replace_l (pat rep l : list ascii) : list ascii :=
  if starts_l pat l then rep ++ drop (length pat) l
  else match l with
       | [] => []
       | c :: l' => c :: replace_l pat rep l'
       end.

Definition replace (s pat rep : string) : string :=
  str (replace_l (chars pat) (chars rep) (chars s)).

End Js.

(** ** The [path] module (POSIX flavour) *)

Module Path.

Definition is_slash (c : ascii) : bool := nat_of_ascii c =? 47.

Fixpoint drop_slashes (l : list ascii) : list ascii :=
  match l with
  | c :: l' => if is_slash c then drop_slashes l' else l
  | [] => []
  end.

Fixpoint drop_segment (l : list ascii) : list ascii :=
  match l with
  | c :: l' => if is_slash c then l else drop_segment l'
  | [] => []
  end.

Fixpoint take_segment (l : list ascii) : list ascii :=
  match l with
  | c :: l' => if is_slash c then [] else c :: take_segment l'
  | [] => []
  end.

(** [path.basename(p)]: scanning from the end, trailing slashes are
    skipped and the characters up to the next slash are returned. *)
Definition basename_l (l : list ascii) : list ascii :=
  rev (take_segment (drop_slashes (rev l))).

Definition basename (p : string) : string := Js.str (basename_l (Js.chars p)).

(** [path.dirname(p)]: scanning from the end down to index 1, trailing
    slashes and then the last segment are skipped; the result is the slice
    before the slash that ends the scan. *)
Definition dirname_l (l : list ascii) : list ascii :=
  match l with
  | [] => ["."%char]
  | c0 :: _ =>
      match drop_segment (drop_slashes (rev l)) with
      | [] => if is_slash c0 then ["/"%char] else ["."%char]
      | _ :: r =>
          match r with
          | [] => ["/"%char]
          | [_] => if is_slash c0 then ["/"; "/"]%char else rev r
          | _ => rev r
          end
      end
  end.

Definition dirname (p : string) : string := Js.str (dirname_l (Js.chars p)).

(** A path string denotes a list of names: its segments between slashes,
    where empty segments and [.] denote nothing.  ([..] and symbolic links
    are not interpreted: registry paths are taken without them.) *)
Definition emit (cur : list ascii) : list string :=
  match cur with
  | [] => []
  | _ => if bool_decide (cur = ["."%char]) then [] else [Js.str (rev cur)]
  end.

Fixpoint segments_go (cur : list ascii) (l : list ascii) : list string :=
  match l with
  | [] => emit cur
  | c :: l' =>
      if is_slash c then emit cur ++ segments_go [] l'
      else segments_go (c :: cur) l'
  end.

Definition segments (p : string) : list string := segments_go [] (Js.chars p).

Definition isAbsolute (p : string) : bool := Js.startsWith p "/".

(** The file a path string names for a process whose working directory is
    [cwd]. *)
Definition resolve (cwd : list string) (p : string) : list string :=
  if isAbsolute p then segments p else cwd ++ segments p.

(** The absolute path string of a list of names, as [path.join] builds it
    from an absolute directory and an entry name. *)
Definition join (dir : string) (name : string) : string :=
  if bool_decide (dir = "/"%string) then ("/" +:+ name)%string
  else (dir +:+ "/" +:+ name)%string.

Definition absolute (p : list string) : string :=
  match p with
  | [] => "/"%string
  | _ => foldl (λ acc n, (acc +:+ "/" +:+ n)%string) ""%string p
  end.

End Path.

(** ** [toKebab] (registry-lint.mjs) *)

Definition toKebab_l (l : list ascii) : list ascii :=
  Js.lower_l (Js.squeeze Js.is_hyphen (Js.squeeze Js.is_ws
    (Js.strip_l (Js.amp_l (Js.trim_l l))))).

Definition toKebab (s : string) : string := Js.str (toKebab_l (Js.chars s)).

(** ** The file tree and the [fs] calls the tools make *)

Module Fs.

(** The tree is a flat store: regular files with their contents and the
    set of directories, both keyed by the list of names from the root. *)
Record tree := Tree {
  files : gmap (list string) string;
  dirs : gset (list string)
}.

Inductive errno := ENOENT | EISDIR | ENOTDIR | EEXIST | EINVAL | ENOTEMPTY.

Definition is_file (t : tree) (p : list string) : bool :=
  bool_decide (is_Some (files t !! p)).
Definition is_dir (t : tree) (p : list string) : bool :=
  bool_decide (p ∈ dirs t).
Definition present (t : tree) (p : list string) : bool :=
  is_file t p || is_dir t p.

Definition parent (p : list string) : list string := removelast p.

(** Every prefix of [p], the root and [p] itself included. *)
Fixpoint prefixes (p : list string) : list (list string) :=
  [] :: match p with
        | [] => []
        | n :: p' => (n ::.) <$> prefixes p'
        end.

Fixpoint strip_prefix (pre p : list string) : option (list string) :=
  match pre, p with
  | [], _ => Some p
  | a :: pre', b :: p' => if bool_decide (a = b) then strip_prefix pre' p' else None
  | _ :: _, [] => None
  end.

Definition inside (d p : list string) : bool :=
  match strip_prefix d p with
  | Some (_ :: _) => true
  | _ => false
  end.

(** [fs.existsSync]: the empty path names nothing. *)
Definition existsSync (cwd : list string) (t : tree) (p : string) : bool :=
  if bool_decide (p = ""%string) then false else present t (Path.resolve cwd p).

(** [fs.readFileSync(p, "utf8")] *)
Definition readFileSync (cwd : list string) (t : tree) (p : string) : errno + string :=
  let q := Path.resolve cwd p in
  match files t !! q with
  | Some c => inr c
  | None => inl (if is_dir t q then EISDIR else ENOENT)
  end.

(** [fs.writeFileSync(p, data, "utf8")] *)
Definition writeFileSync (cwd : list string) (t : tree) (p data : string) : errno + tree :=
  let q := Path.resolve cwd p in
  if is_dir t q then inl EISDIR
  else if is_dir t (parent q) then inr (Tree (<[q := data]> (files t)) (dirs t))
  else inl ENOENT.

(** [fs.mkdirSync(p, { recursive: true })]: every missing directory on the
    way is created; a regular file on the way is an error. *)
Definition mkdir_p (t : tree) (q : list string) : errno + tree :=
  if bool_decide (Exists (λ a, is_file t a = true) (prefixes q))
  then inl (if is_file t q then EEXIST else ENOTDIR)
  else inr (Tree (files t) (dirs t ∪ list_to_set (prefixes q))).

Definition mkdirSync (cwd : list string) (t : tree) (p : string) : errno + tree :=
  mkdir_p t (Path.resolve cwd p).

(** Where a path below [from] lies once [from] has become [to]. *)
Definition rebase (from to p : list string) : list string :=
  match strip_prefix from p with
  | Some rest => to ++ rest
  | None => p
  end.

Definition move_subtree (t : tree) (from to : list string) : tree :=
  Tree (list_to_map (prod_map (rebase from to) id <$> map_to_list (files t)))
       (set_map (rebase from to) (dirs t ∖ {[to]})).

Definition nonempty_dir (t : tree) (d : list string) : bool :=
  bool_decide (Exists (λ p, inside d p = true)
    ((map_to_list (files t)).*1 ++ elements (dirs t))).

(** [rename(2)] on resolved paths: a regular file replaces a regular file
    at the destination; a directory moves with everything below it. *)
Definition rename (t : tree) (from to : list string) : errno + tree :=
  match files t !! from with
  | Some c =>
      if bool_decide (from = to) then inr t
      else if is_dir t to then inl EISDIR
      else if is_dir t (parent to)
      then inr (Tree (<[to := c]> (delete from (files t))) (dirs t))
      else inl (if bool_decide (Exists (λ a, is_file t a = true) (prefixes (parent to)))
                then ENOTDIR else ENOENT)
  | None =>
      if is_dir t from then
        if bool_decide (from = to) then inr t
        else if is_file t to then inl ENOTDIR
        else if inside from to then inl EINVAL
        else if nonempty_dir t to then inl ENOTEMPTY
        else if is_dir t (parent to) then inr (move_subtree t from to)
        else inl ENOENT
      else inl ENOENT
  end.

(** [fs.renameSync(from, to)] *)
Definition renameSync (cwd : list string) (t : tree) (from to : string) : errno + tree :=
  rename t (Path.resolve cwd from) (Path.resolve cwd to).

Definition describe (e : errno) : string :=
  match e with
  | ENOENT => "ENOENT: no such file or directory"
  | EISDIR => "EISDIR: illegal operation on a directory"
  | ENOTDIR => "ENOTDIR: not a directory"
  | EEXIST => "EEXIST: file already exists"
  | EINVAL => "EINVAL: invalid argument"
  | ENOTEMPTY => "ENOTEMPTY: directory not empty"
  end%string.

(** [e.message] of the error a failed [renameSync] throws. *)
Definition rename_message (e : errno) (from to : string) : string :=
  (describe e +:+ ", rename '" +:+ from +:+ "' -> '" +:+ to +:+ "'")%string.

(** [fs.readdirSync(dir, { withFileTypes: true })]: the names directly
    under [dir], each with its [isDirectory()] flag. *)
Definition child_name (dir p : list string) : option string :=
  match strip_prefix dir p with
  | Some [n] => Some n
  | _ => None
  end.

Definition readdirSync (t : tree) (dir : list string) : list (string * bool) :=
  omap (λ p, (., false) <$> child_name dir p) (map_to_list (files t)).*1
  ++ omap (λ p, (., true) <$> child_name dir p) (elements (dirs t)).

(** A bound on the depth of the tree. *)
Definition depth (t : tree) : nat :=
  foldr max 0 (length <$> ((map_to_list (files t)).*1 ++ elements (dirs t))).

End Fs.

(** ** The registry document *)

(** A record of the registry.  A field that is absent (or [null]) is
    [None]; [extras] are the fields the tools never look at. *)
Record agent := Agent {
  name : option string;
  category : option string;
  source_file : option string;
  description : option string;
  extras : list (string * string)
}.

Global Instance agent_eq_dec : EqDecision agent.
Proof. solve_decision. Defined.

(** The [agents] field of the parsed document: absent, a value that is not
    an array (a scalar, given by its text), or an array of records. *)
Inductive agents_field :=
  | NoAgents
  | NotArray (v : string)
  | AgentsArray (l : list agent).

Record document := Document {
  categories : option (gmap string string);
  agents : agents_field;
  others : list (string * string)
}.

(** The default export of the [yaml] package. *)
Record yaml_module := Yaml {
  parse : string → option document;
  stringify : document → string
}.

(** What the process is given from outside: its working directory, the
    built-in [JSON.parse] ([None] when it throws) and the [yaml] package
    ([None] when it is not installed). *)
Record host := Host {
  cwd : list string;
  JSON_parse : string → option document;
  yaml : option yaml_module
}.

(** How a run ends: by falling off the end of the script, by
    [process.exit(code)], or by an exception nothing catches. *)
Inductive status :=
  | Done
  | Exit (code : nat)
  | Uncaught (what : string).

Record run := Run {
  output : list string;
  tree_after : Fs.tree;
  ending : status
}.

(** [x || d] on a string that may be absent: absent and empty are falsy. *)
Definition truthy (x : option string) : option string :=
  match x with
  | Some s => if bool_decide (s = ""%string) then None else Some s
  | None => None
  end.

Definition or_else (x : option string) (d : string) : string :=
  default d (truthy x).

Definition nl : string := String (ascii_of_nat 10) EmptyString.

(** The double quote character. *)
Definition dq : string := String (ascii_of_nat 34) EmptyString.

(** ** [tools/registry-lint.mjs] *)

Module Lint.

Definition aliasMap (k : string) : option string :=
  if bool_decide (k = "engineering") then Some "01-core-development"
  else if bool_decide (k = "analysis") then Some "10-research-analysis"
  else if bool_decide (k = "quality") then Some "04-quality-security"
  else if bool_decide (k = "communication") then Some "08-business-product"
  else if bool_decide (k = "business") then Some "08-business-product"
  else if bool_decide (k = "specialized") then Some "07-specialized-domains"
  else None.

Definition rootCategoryKey : string := "superclaude-root".
Definition ROOT_DIR_DEFAULT : string := "superclaude-root".

(** [data?.categories ?? {}] *)
Definition categoryMapDeclared (data : document) : gmap string string :=
  default ∅ (categories data).

Definition declaredKeys (data : document) : gset string :=
  dom (categoryMapDeclared data).

Definition getCatDir (data : document) (catKey : string) : string :=
  or_else (categoryMapDeclared data !! catKey) catKey.

Definition ensurePrefixedByCategory (data : document) (filePath categoryKey : string) : string :=
  let catDir := getCatDir data categoryKey in
  let base := Path.basename filePath in
  if Js.startsWith filePath (catDir +:+ "/") then filePath
  else catDir +:+ "/" +:+ base.

Record problem := Problem {
  level : string;
  msg : string;
  subject : option string;
  payload : option agent
}.

Record move := Move { from : string; to : string; owner : string }.

Record removal := Removal { reason : string; dropped : agent }.

(** The five collections the processing loop fills. *)
Record state := State {
  problems : list problem;
  moves : list move;
  kept : list agent;
  removed : list removal;
  seenNames : gset string
}.

Definition init : state := State [] [] [] [] ∅.

(** Steps 2 to 4 of the loop body, for a record whose name [nm] is new: the
    record pushed to [kept], the warnings and the move it adds. *)
Definition normalize (data : document) (nm : string) (out : agent)
    : agent * list problem * list move :=
  (* 2) normalize category *)
  let cat0 := Js.trim (or_else (category out) "") in
  let cat1 := default cat0 (aliasMap cat0) in
  let unknown := negb (bool_decide (cat1 = "")) && negb (bool_decide (cat1 ∈ declaredKeys data))
                 && negb (bool_decide (cat1 = rootCategoryKey)) in
  let hint := category out ≫= aliasMap in
  let p_cat :=
    if unknown then
      [Problem "warn"
         ("Unknown category '" +:+ default "undefined" (category out) +:+ "' -> consider '"
            +:+ default "choose one of declared keys" hint +:+ "'")
         (Some nm) None]
    else [] in
  let cat2 := if unknown then default "01-core-development" hint else cat1 in
  let cat := if bool_decide (cat2 = "") then "01-core-development" else cat2 in
  (* 3) source_file normalization *)
  let src0 := Js.trim (or_else (source_file out) "") in
  let guessed := toKebab nm +:+ ".md" in
  let src := if bool_decide (src0 = "") then guessed else src0 in
  let p_src :=
    if bool_decide (src0 = "") then
      [Problem "warn" ("Missing source_file; synthesized '" +:+ guessed +:+ "'") (Some nm) None]
    else [] in
  let normBase := toKebab (Path.basename src) in
  let norm0 := Js.replace src (Path.basename src) normBase in
  let norm :=
    if bool_decide (cat = rootCategoryKey) then
      if Js.startsWith norm0 (ROOT_DIR_DEFAULT +:+ "/") then norm0
      else ROOT_DIR_DEFAULT +:+ "/" +:+ normBase
    else ensurePrefixedByCategory data norm0 cat in
  let mv := if bool_decide (norm = src) then [] else [Move src norm nm] in
  (* 4) description length check *)
  let p_desc :=
    match truthy (description out) with
    | Some d =>
        if 160 <? String.length d then
          [Problem "warn" ("Description >160 chars (" +:+ pretty (String.length d) +:+ ")")
             (Some nm) None]
        else []
    | None => []
    end in
  (Agent (name out) (Some cat) (Some norm) (description out) (extras out),
   p_cat ++ p_src ++ p_desc, mv).

(** One turn of [for (const agent of agents)]. *)
Definition step (data : document) (st : state) (a : agent) : state :=
  match truthy (name a) with
  | None =>
      State (problems st ++ [Problem "error" "Agent without name" None (Some a)])
            (moves st) (kept st) (removed st) (seenNames st)
  | Some nm =>
      if bool_decide (nm ∈ seenNames st) then
        State (problems st) (moves st) (kept st)
              (removed st ++ [Removal "duplicate-name" a]) (seenNames st)
      else
        let '(out, ps, mv) := normalize data nm a in
        State (problems st ++ ps) (moves st ++ mv) (kept st ++ [out])
              (removed st) ({[nm]} ∪ seenNames st)
  end.

(** [Array.isArray(data?.agents) ? data.agents : []] *)
Definition agents_of (data : document) : list agent :=
  match agents data with
  | AgentsArray l => l
  | _ => []
  end.

Definition process (data : document) : state :=
  foldl (step data) init (agents_of data).

Definition result (data : document) : document :=
  Document (categories data) (AgentsArray (kept (process data))) (others data).

Record summary := Summary {
  total : nat;
  n_kept : nat;
  n_removed : nat;
  duplicates_removed : nat;
  n_problems : nat;
  n_moves : nat
}.

Definition summarize (data : document) : summary :=
  let st := process data in
  Summary (length (agents_of data)) (length (kept st)) (length (removed st))
    (length (filter (λ r, reason r = "duplicate-name") (removed st)))
    (length (problems st)) (length (moves st)).

End Lint.

Module LintCli.
Import Lint.

(** [printReport()]: one entry per [console.log] call. *)
Definition printReport (data : document) : list string :=
  let st := process data in
  let s := summarize data in
  ["=== Agent Registry Lint Report ===";
   "Total: " +:+ pretty (total s) +:+ " | Kept: " +:+ pretty (n_kept s)
     +:+ " | Removed (dupes): " +:+ pretty (n_removed s)
     +:+ " (" +:+ pretty (duplicates_removed s) +:+ ")"]
  ++ (match problems st with
      | [] => []
      | ps => (nl +:+ "Issues:") ::
              ((λ p, " - [" +:+ level p +:+ "] " +:+ msg p
                     +:+ match truthy (subject p) with
                         | Some n => " — " +:+ n
                         | None => ""
                         end) <$> ps)
      end)
  ++ (match moves st with
      | [] => []
      | ms => (nl +:+ "Path fixes suggested:") ::
              ((λ m, " - " +:+ from m +:+ "  ->  " +:+ to m) <$> ms)
      end)
  ++ (match removed st with
      | [] => []
      | rs => (nl +:+ "Duplicates dropped:") ::
              ((λ r, " - " +:+ default "undefined" (name (dropped r))) <$> rs)
      end).

(** The body of [for (const { from, to } of moves)] after the directory
    of [to] has been made: the [try] block with its [catch]. *)
Definition move_one (cwd : list string) (t : Fs.tree) (m : move) : Fs.tree * list string :=
  let warn e tried :=
    "(warn) move failed " +:+ from m +:+ " -> " +:+ to m +:+ ": "
      +:+ Fs.rename_message e tried (to m) in
  if Fs.existsSync cwd t (from m) then
    match Fs.renameSync cwd t (from m) (to m) with
    | inr t' => (t', ["mv " +:+ from m +:+ " -> " +:+ to m])
    | inl e => (t, [warn e (from m)])
    end
  else
    (* If original path not found, try basename from repo root *)
    let base := Path.basename (from m) in
    if Fs.existsSync cwd t base then
      match Fs.renameSync cwd t base (to m) with
      | inr t' => (t', ["mv " +:+ base +:+ " -> " +:+ to m])
      | inl e => (t, [warn e base])
      end
    else (t, ["(skip) could not find file to move: " +:+ from m]).

(** The move loop.  [mkdirSync] stands before the [try]: when it throws,
    nothing catches it and the run ends there. *)
Fixpoint apply_moves (cwd : list string) (ms : list move) (t : Fs.tree) (log : list string)
    : list string * Fs.tree * status :=
  match ms with
  | [] => (log, t, Done)
  | m :: ms' =>
      let toDir := Path.dirname (to m) in
      match Fs.mkdirSync cwd t toDir with
      | inl e => (log, t, Uncaught (Fs.describe e +:+ ", mkdir '" +:+ toDir +:+ "'"))
      | inr t1 =>
          let '(t2, lines) := move_one cwd t1 m in
          apply_moves cwd ms' t2 (log ++ lines)
      end
  end.

(** The parser block: [JSON.parse] first, then the [yaml] package. *)
Definition load (h : host) (raw : string) : option document :=
  match JSON_parse h raw with
  | Some d => Some d
  | None => yaml h ≫= λ y, parse y raw
  end.

(** The [if (FIX)] block, entered with the report already printed. *)
Definition write_and_apply (h : host) (APPLY_MOVES : bool) (ymlPath raw : string)
    (data : document) (t : Fs.tree) (log : list string) : run :=
  let bak := ymlPath +:+ ".bak" in
  match Fs.writeFileSync (cwd h) t bak raw with
  | inl e => Run log t (Uncaught (Fs.describe e +:+ ", open '" +:+ bak +:+ "'"))
  | inr t1 =>
      match yaml h with
      | None => Run (log ++ [nl +:+ "To write fixes, we need 'yaml'. Run: npm i yaml"]) t1 (Exit 1)
      | Some yamlMod =>
          let fixed := stringify yamlMod (result data) in
          match Fs.writeFileSync (cwd h) t1 ymlPath fixed with
          | inl e => Run log t1 (Uncaught (Fs.describe e +:+ ", open '" +:+ ymlPath +:+ "'"))
          | inr t2 =>
              let log2 := log ++ [nl +:+ "✔ Wrote fixes to " +:+ ymlPath
                                     +:+ " (backup at " +:+ bak +:+ ")"] in
              let ms := moves (process data) in
              match ms with
              | [] => Run log2 t2 Done
              | _ =>
                  if APPLY_MOVES then
                    match apply_moves (cwd h) ms t2 log2 with
                    | (log3, t3, Done) => Run (log3 ++ ["✔ Applied file moves where possible."]) t3 Done
                    | (log3, t3, s) => Run log3 t3 s
                    end
                  else
                    Run (log2 ++ [nl +:+ "To apply file moves later, rerun with --apply-moves";
                                  "Or manual git moves:"]
                              ++ ((λ m, "git mv " +:+ dq +:+ from m +:+ dq +:+ " " +:+ dq +:+ to m +:+ dq) <$> ms))
                        t2 Done
              end
          end
      end
  end.

(** The script from its first line: [args] is [process.argv.slice(2)]. *)
Definition main (h : host) (args : list string) (t : Fs.tree) : run :=
  match args with
  | [] => Run ["Usage: node tools/registry-lint.mjs [--fix] [--apply-moves] <registry.yml>"] t (Exit 1)
  | _ =>
      let FIX := bool_decide ("--fix" ∈ args) in
      let APPLY_MOVES := bool_decide ("--apply-moves" ∈ args) in
      match truthy (head (filter (λ a, Js.startsWith a "--" = false) args)) with
      | None => Run ["Error: missing <registry.yml> path."] t (Exit 1)
      | Some ymlPath =>
          match Fs.readFileSync (cwd h) t ymlPath with
          | inl e => Run [] t (Uncaught (Fs.describe e +:+ ", open '" +:+ ymlPath +:+ "'"))
          | inr raw =>
              match load h raw with
              | None =>
                  Run ["This YAML isn't trivially parseable without a parser." +:+ nl +:+ "Quick fix:";
                       "  npm i yaml && replace the parser block to always use it."] t (Exit 1)
              | Some data =>
                  let log := printReport data in
                  if FIX then write_and_apply h APPLY_MOVES ymlPath raw data t log
                  else Run log t Done
              end
          end
      end
  end.

End LintCli.

(** ** [tools/rescue-move-by-basename.mjs] *)

Module Rescue.

(** [walk(dir)], with [dir] both as names and as the string the paths are
    joined to.  The recursion descends one directory level per unit of
    [fuel]; [Fs.depth] of the tree is enough for all of it. *)
Fixpoint walk (fuel : nat) (t : Fs.tree) (dir : list string) (dirS : string) : list string :=
  match fuel with
  | 0 => []
  | S fuel' =>
      mjoin ((λ e : string * bool,
                let p := Path.join dirS e.1 in
                if e.2 then walk fuel' t (dir ++ [e.1]) p else [p])
             <$> Fs.readdirSync t dir)
  end.

(** The basename index: lower-cased basename to the paths bearing it, in
    the order they were found. *)
Definition index_add (index : gmap string (list string)) (p : string)
    : gmap string (list string) :=
  let b := Js.toLowerCase (Path.basename p) in
  <[b := default [] (index !! b) ++ [p]]> index.

Definition build_index (all : list string) : gmap string (list string) :=
  foldl index_add ∅ all.

(** The index of the tree below [root]: [walk(root)], the filter on the
    suffix and the loop that fills the map. *)
Definition scan (root : list string) (t : Fs.tree) : gmap string (list string) :=
  let all := filter (λ p, Js.endsWith p ".md" = true)
               (walk (S (Fs.depth t)) t root (Path.absolute root)) in
  build_index all.

(** The counters of the main loop, the tree and what was printed. *)
Record state := State {
  tree : Fs.tree;
  moved : nat;
  missing : nat;
  skipped : nat;
  log : list string
}.

(** One turn of [for (const to of want)].  [mkdirSync] is outside the
    [try]: its exception ends the run. *)
Definition step (cwd : list string) (index : gmap string (list string))
    (st : state) (to : string) : string + state :=
  let base := Js.toLowerCase (Path.basename to) in
  if Fs.existsSync cwd (tree st) to then
    inr (State (tree st) (moved st) (missing st) (S (skipped st)) (log st))
  else
    let candidates := default [] (index !! base) in
    match candidates with
    | [from] =>
        let toDir := Path.dirname to in
        match Fs.mkdirSync cwd (tree st) toDir with
        | inl e => inl (Fs.describe e +:+ ", mkdir '" +:+ toDir +:+ "'")
        | inr t1 =>
            match Fs.renameSync cwd t1 from to with
            | inr t2 =>
                inr (State t2 (S (moved st)) (missing st) (skipped st)
                       (log st ++ ["mv " +:+ from +:+ " -> " +:+ to]))
            | inl e =>
                inr (State t1 (moved st) (missing st) (skipped st)
                       (log st ++ ["(warn) move failed " +:+ from +:+ " -> " +:+ to +:+ ": "
                                     +:+ Fs.rename_message e from to]))
            end
        end
    | [] =>
        inr (State (tree st) (moved st) (S (missing st)) (skipped st)
               (log st ++ ["(missing) could not find source for " +:+ to]))
    | _ =>
        inr (State (tree st) (moved st) (missing st) (skipped st)
               (log st ++ ["(ambiguous) " +:+ base +:+ " has " +:+ pretty (length candidates)
                             +:+ " matches:"]
                       ++ ((λ c, "  - " +:+ c) <$> candidates)))
    end.

Fixpoint loop (cwd : list string) (index : gmap string (list string))
    (want : list string) (st : state) : string * state + state :=
  match want with
  | [] => inr st
  | to :: want' =>
      match step cwd index st to with
      | inl e => inl (e, st)
      | inr st' => loop cwd index want' st'
      end
  end.

Definition default_registry : string := "improved-index.yml".

(** [(doc.agents || []).map(a => a.source_file).filter(Boolean)]; a
    non-empty scalar has no [map] method. *)
Definition want_of (doc : document) : option (list string) :=
  match agents doc with
  | NoAgents => Some []
  | NotArray v => if bool_decide (v = ""%string) then Some [] else None
  | AgentsArray l => Some (omap (λ a, truthy (source_file a)) l)
  end.

Definition summary_line (st : state) : string :=
  "Done. moved=" +:+ pretty (moved st) +:+ ", skipped=" +:+ pretty (skipped st)
    +:+ ", unresolved_missing=" +:+ pretty (missing st).

(** The script after [registry] has been chosen. *)
Definition pass (h : host) (registry : string) (t : Fs.tree) : run :=
  match yaml h with
  | None => Run [] t (Uncaught "Cannot find package 'yaml'")
  | Some y =>
      match Fs.readFileSync (cwd h) t registry with
      | inl e => Run [] t (Uncaught (Fs.describe e +:+ ", open '" +:+ registry +:+ "'"))
      | inr raw =>
          match parse y raw with
          | None => Run [] t (Uncaught "YAMLParseError")
          | Some doc =>
              match want_of doc with
              | None => Run [] t (Uncaught "TypeError: (doc.agents || []).map is not a function")
              | Some want =>
                  let index := scan (cwd h) t in
                  match loop (cwd h) index want (State t 0 0 0 []) with
                  | inl (e, st) => Run (log st) (tree st) (Uncaught e)
                  | inr st => Run (log st ++ [summary_line st]) (tree st) Done
                  end
              end
          end
      end
  end.

(** The script from its first line: [argv2] is [process.argv[2]], absent
    when the tool is called without an argument. *)
Definition main (h : host) (argv2 : option string) (t : Fs.tree) : run :=
  let registry := or_else argv2 default_registry in
  pass h registry t.

End Rescue.

(** * Notions the properties are stated with *)

(** The characters [toKebab] can return: [a-z0-9._/-]. *)
Definition kebab_char (c : ascii) : bool :=
  Js.allowed c && negb (Js.is_ws c) && negb (Js.is_upper c).

(** Kebab form: only such characters and no two hyphens in a row. *)
Definition kebab_form (l : list ascii) : Prop :=
  Forall (λ c, kebab_char c = true) l ∧ Js.squeeze Js.is_hyphen l = l.

(** The record [normalize] returns, without the warnings and the move. *)
Definition normalize_out (data : document) (nm : string) (a : agent) : agent :=
  (Lint.normalize data nm a).1.1.

(** The identity key a record is processed under. *)
Definition key (a : agent) : string := default "" (truthy (name a)).

(** The canonical record the loop pushes to [kept] for [a]. *)
Definition canonical (data : document) (a : agent) : agent :=
  normalize_out data (key a) a.

(** The records of [l] that reach step 2 of the loop body when the names in
    [seen] have been met before. *)
Fixpoint survivors (seen : gset string) (l : list agent) : list agent :=
  match l with
  | [] => []
  | a :: l' =>
      match truthy (name a) with
      | None => survivors seen l'
      | Some nm =>
          if bool_decide (nm ∈ seen) then survivors seen l'
          else a :: survivors ({[nm]} ∪ seen) l'
      end
  end.

(** The directory a canonical record must lie in, by its category. *)
Definition required_dir (data : document) (cat : string) : string :=
  if bool_decide (cat = Lint.rootCategoryKey) then Lint.ROOT_DIR_DEFAULT
  else Lint.getCatDir data cat.

(** A document whose [agents] field is absent or is not an array. *)
Definition no_agent_array (data : document) : Prop :=
  match agents data with
  | AgentsArray _ => False
  | _ => True
  end.

(** [s.indexOf(pat)]: where [pat] first occurs in [s]. *)
Fixpoint indexOf_l (pat l : list ascii) : option nat :=
  if Js.starts_l pat l then Some 0
  else match l with
       | [] => None
       | _ :: l' => S <$> indexOf_l pat l'
       end.

Definition indexOf (s pat : string) : option nat := indexOf_l (Js.chars pat) (Js.chars s).

(** The declared path the loop works on: the trimmed [source_file], or the
    name synthesised from the identity key when there is none. *)
Definition declared_path (a : agent) : string :=
  let src0 := Js.trim (or_else (source_file a) "") in
  if bool_decide (src0 = ""%string) then (toKebab (key a) +:+ ".md")%string else src0.

(** The basename of the declared path occurs in it at its end only. *)
Definition basename_last (src : string) : Prop :=
  indexOf src (Path.basename src)
  = Some (String.length src - String.length (Path.basename src)).

(** Step 3 of the loop body as a function of the resolved category and the
    declared path. *)
Definition canonical_path (data : document) (cat src : string) : string :=
  let normBase := toKebab (Path.basename src) in
  let norm0 := Js.replace src (Path.basename src) normBase in
  if bool_decide (cat = Lint.rootCategoryKey) then
    if Js.startsWith norm0 (Lint.ROOT_DIR_DEFAULT +:+ "/") then norm0
    else Lint.ROOT_DIR_DEFAULT +:+ "/" +:+ normBase
  else Lint.ensurePrefixedByCategory data norm0 cat.

(** The canonical path of the record the loop pushes to [kept] for [a]. *)
Definition canonical_file (data : document) (a : agent) : string :=
  default "" (source_file (canonical data a)).

(** A record that is where the loop would put it: its declared path has no
    blank around it, lies under the directory of the category the loop
    resolves for the record, and ends in a basename [toKebab] leaves as it
    is. *)
Definition already_canonical (data : document) (a : agent) : Prop :=
  ∃ p cat,
    source_file a = Some p ∧ p ≠ ""%string ∧ Js.trim p = p
    ∧ toKebab (Path.basename p) = Path.basename p
    ∧ category (canonical data a) = Some cat
    ∧ Js.startsWith p (required_dir data cat +:+ "/") = true.

(** The problems of level [error]: the records without a name. *)
Definition errors (ps : list Lint.problem) : list Lint.problem :=
  filter (λ p, Lint.level p = "error"%string) ps.

(** A path below [dir]: its names, the regular file they end at and the
    directories they go through. *)
Definition reaches (t : Fs.tree) (dir rest : list string) : Prop :=
  rest ≠ [] ∧ Fs.is_file t (dir ++ rest) = true
  ∧ ∀ k, 0 < k < length rest → Fs.is_dir t (dir ++ take k rest) = true.

(** The three lines a turn of the move loop can print. *)
Definition is_move_line (line : string) : Prop :=
  Js.startsWith line "mv " = true
  ∨ Js.startsWith line "(warn) move failed " = true
  ∨ Js.startsWith line "(skip) could not find file to move: " = true.

(** The pieces of a path string between its slashes, the empty ones
    included. *)
Fixpoint pieces_go (cur l : list ascii) : list string :=
  match l with
  | [] => [Js.str (rev cur)]
  | c :: l' =>
      if Path.is_slash c then Js.str (rev cur) :: pieces_go [] l'
      else pieces_go (c :: cur) l'
  end.

Definition pieces (p : string) : list string := pieces_go [] (Js.chars p).

(** A path string the tree model reads as the file system does: none of
    its pieces is [.] or [..], and it does not end in a slash (so it is not
    empty either). *)
Definition plain_path (p : string) : bool :=
  forallb (λ n, negb (bool_decide (n = "."%string)) && negb (bool_decide (n = ".."%string)))
    (pieces p)
  && negb (bool_decide (last (pieces p) = Some ""%string)).

(** The names every object of Node.js inherits from [Object.prototype]. *)
Definition Object_prototype : list string :=
  ["constructor"; "__defineGetter__"; "__defineSetter__"; "hasOwnProperty";
   "__lookupGetter__"; "__lookupSetter__"; "isPrototypeOf"; "propertyIsEnumerable";
   "toString"; "valueOf"; "__proto__"; "toLocaleString"]%string.

(** A record whose category, as the loop looks it up in [aliasMap], is not
    spelled like an inherited member: the lookup is one in the table. *)
Definition own_category (a : agent) : Prop :=
  Js.trim (or_else (category a) "") ∉ Object_prototype.

(** The state the rescue loop ends in, by its last turn or by the exception
    that stops it. *)
Definition loop_end (r : string * Rescue.state + Rescue.state) : Rescue.state :=
  match r with
  | inr st => st
  | inl (_, st) => st
  end.

(** ** Runs on small trees *)

Module Demo.

Definition core : string := "01-core-development".

Definition one_category : option (gmap string string) := Some {[ core := core ]}.

(** A host whose [yaml] package reads the text [registry] as [doc]. *)
Definition host_of (doc : document) : host :=
  Host ["repo"] (λ _, None)
       (Some (Yaml (λ raw, if bool_decide (raw = "registry") then Some doc else None)
                   (λ _, "fixed registry"))).

Definition tree_of (fs : list (list string * string)) (ds : list (list string)) : Fs.tree :=
  Fs.Tree (list_to_map fs) (list_to_set ([] :: ["repo"] :: ds)).

(** Scenario B of the specification: one record, category [engineering],
    declared path [foo.md]. *)
Definition doc_foo : document :=
  Document one_category
    (AgentsArray [Agent (Some "foo") (Some "engineering") (Some "foo.md") None []]) [].

(** The tree holds the declared file and, already, a file at the canonical
    path. *)
Definition tree_both : Fs.tree :=
  tree_of [(["repo"; "improved-index.yml"], "registry");
           (["repo"; "foo.md"], "declared");
           (["repo"; core; "foo.md"], "present")]
          [["repo"; core]].

(** The tree holds neither the declared file nor the category directory. *)
Definition tree_bare : Fs.tree :=
  tree_of [(["repo"; "improved-index.yml"], "registry")] [].

(** A document with no [agents] field. *)
Definition doc_none : document := Document one_category NoAgents [].

(** Two records with different names and one declared path. *)
Definition doc_shared : document :=
  Document one_category
    (AgentsArray [Agent (Some "a") (Some core) (Some "x.md") None [];
                  Agent (Some "b") (Some core) (Some "x.md") None []]) [].

(** One record whose declared path repeats its basename as a directory. *)
Definition doc_upper : document :=
  Document one_category (AgentsArray [Agent (Some "a") None (Some "A/A") None []]) [].

(** Scenario A of the specification: two records share the identity key
    [x], with the declared paths [a.md] and [b.md]. *)
Definition doc_dup : document :=
  Document one_category
    (AgentsArray [Agent (Some "x") (Some core) (Some "a.md") None [];
                  Agent (Some "x") (Some core) (Some "b.md") None []]) [].




Definition tree_single : Fs.tree :=
  tree_of [(["repo"; "improved-index.yml"], "registry");
           (["repo"; "x.md"], "X")] [].

(** [tree_single] once the directory [p] has been made, and once [x.md]
    has moved into it. *)
Definition tree_single_dir : Fs.tree :=
  tree_of [(["repo"; "improved-index.yml"], "registry");
           (["repo"; "x.md"], "X")] [["repo"; "p"]].


End Demo.

(** Further documents and trees, for the properties beyond the claims. *)
Module Cases.

(** A record already at its canonical path, and one without a declared
    path. *)
Definition doc_settled : document :=
  Document Demo.one_category
    (AgentsArray [Agent (Some "foo") (Some Demo.core) (Some "01-core-development/foo.md") None []]) [].

(** [Demo.tree_single] after the rescue of [p/x.md] and the failed one of
    [q/x.md]. *)
Definition tree_single_both : Fs.tree :=
  Demo.tree_of [(["repo"; "improved-index.yml"], "registry");
                (["repo"; "p"; "x.md"], "X")] [["repo"; "p"]; ["repo"; "q"]].

(** A tree with the declared [foo.md] and no category directory, and the
    same once the directory has been made. *)
Definition tree_declared : Fs.tree :=
  Demo.tree_of [(["repo"; "improved-index.yml"], "registry");
                (["repo"; "foo.md"], "declared")] [].

Definition tree_declared_dir : Fs.tree :=
  Demo.tree_of [(["repo"; "improved-index.yml"], "registry");
                (["repo"; "foo.md"], "declared")] [["repo"; Demo.core]].

Definition doc_pathless : document :=
  Document Demo.one_category
    (AgentsArray [Agent (Some "Code Reviewer") (Some Demo.core) None None []]) [].

(** The record of scenario B under a table that sends the key
    [01-core-development] to the directory [agents/core]. *)
Definition doc_mapped : document :=
  Document (Some {[ Demo.core := "agents/core"%string ]})
    (AgentsArray [Agent (Some "foo") (Some "engineering") (Some "foo.md") None []]) [].

(** Two records whose moves lead to two directories, and a tree in which
    the first of them, [01-core-development], is a regular file. *)
Definition doc_two_dirs : document :=
  Document Demo.one_category
    (AgentsArray [Agent (Some "foo") (Some "engineering") (Some "foo.md") None [];
                  Agent (Some "bar") (Some "quality") (Some "bar.md") None []]) [].

Definition tree_blocked : Fs.tree :=
  Demo.tree_of [(["repo"; "improved-index.yml"], "registry");
                (["repo"; Demo.core], "a regular file")] [].

(** Three files named [reviewer.md] up to case, one of them with the
    suffix in capitals. *)
Definition tree_capitals : Fs.tree :=
  Demo.tree_of [(["repo"; "a"; "reviewer.md"], "A");
                (["repo"; "b"; "Reviewer.MD"], "B");
                (["repo"; "c"; "REVIEWER.md"], "C")]
               [["repo"; "a"]; ["repo"; "b"]; ["repo"; "c"]].

End Cases.

(** * Properties *)

(** A property of every character, settled on the 256 of them. *)
Ltac each_char c :=
  destruct c as [[] [] [] [] [] [] [] []]; vm_compute; try reflexivity;
  try discriminate; try (intros; discriminate).

(** ** The runtime model on small inputs *)

Example basename_ex : Path.basename "a/b/My File.md" = "My File.md"%string
  ∧ Path.basename "x.md" = "x.md"%string ∧ Path.basename "a/b/" = "b"%string
  ∧ Path.basename "/" = ""%string.
Proof. repeat split; reflexivity. Qed.

Example dirname_ex : Path.dirname "a/b/c.md" = "a/b"%string
  ∧ Path.dirname "c.md" = "."%string ∧ Path.dirname "/c.md" = "/"%string
  ∧ Path.dirname "a//c" = "a/"%string ∧ Path.dirname "//c" = "//"%string
  ∧ Path.dirname "" = "."%string ∧ Path.dirname "a/b/" = "a"%string.
Proof. repeat split; reflexivity. Qed.

Example resolve_ex :
  Path.resolve ["repo"%string] "01-core/./x.md" = ["repo"; "01-core"; "x.md"]%string
  ∧ Path.resolve ["repo"%string] "." = ["repo"%string]
  ∧ Path.resolve ["repo"%string] "/repo/x.md" = ["repo"; "x.md"]%string
  ∧ Path.absolute ["repo"; "x.md"]%string = "/repo/x.md"%string.
Proof. repeat split; reflexivity. Qed.

Example toKebab_ex1 : toKebab "My File.md" = "my-file.md"%string.
Proof. reflexivity. Qed.
Example toKebab_ex2 : toKebab "  R&D --  Lead!	x " = "randd-leadx"%string.
Proof. reflexivity. Qed.

(** ** Strings *)

Section JsFacts.
Import Js.

Lemma chars_str l : chars (str l) = l.
Proof. apply list_ascii_of_string_of_list_ascii. Qed.

Lemma str_chars s : str (chars s) = s.
Proof. apply string_of_list_ascii_of_string. Qed.

Lemma chars_app s1 s2 : chars (s1 +:+ s2) = chars s1 ++ chars s2.
Proof. induction s1 as [|a s1 IH]; simpl; [done|]. by rewrite IH. Qed.

Lemma string_app_assoc (s1 s2 s3 : string) : (s1 +:+ s2) +:+ s3 = s1 +:+ (s2 +:+ s3).
Proof.
  induction s1 as [|a s1 IH]; [done|].
  change (String a ((s1 +:+ s2) +:+ s3) = String a (s1 +:+ (s2 +:+ s3))).
  by rewrite IH.
Qed.

Lemma str_app l1 l2 : str (l1 ++ l2) = str l1 +:+ str l2.
Proof. induction l1 as [|a l1 IH]; simpl; [done|]. by rewrite IH. Qed.

Lemma lower_char_idem c : lower_char (lower_char c) = lower_char c.
Proof. each_char c. Qed.

Lemma is_hyphen_lower c : is_hyphen (lower_char c) = is_hyphen c.
Proof. each_char c. Qed.

Lemma is_hyphen_eq c : is_hyphen c = true → c = "-"%char.
Proof. each_char c. Qed.

Lemma lower_after_ws c :
  allowed c = true → is_ws c = false → kebab_char (lower_char c) = true.
Proof. each_char c. Qed.

Lemma kebab_char_allowed c : kebab_char c = true → allowed c = true.
Proof. each_char c. Qed.

Lemma kebab_char_not_ws c : kebab_char c = true → is_ws c = false.
Proof. each_char c. Qed.

Lemma kebab_char_not_amp c : kebab_char c = true → is_amp c = false.
Proof. each_char c. Qed.

Lemma kebab_char_lower c : kebab_char c = true → lower_char c = c.
Proof. each_char c. Qed.

Lemma kebab_char_not_upper c : kebab_char c = true → is_upper c = false.
Proof. each_char c. Qed.

Lemma squeeze_go_Forall (P : ascii → Prop) p b l :
  P "-"%char → Forall P l → Forall P (squeeze_go p b l).
Proof.
  intros Hh Hl. revert b. induction Hl as [|c l Hc _ IH]; intros b; simpl; [done|].
  destruct (p c); [destruct b|]; auto.
Qed.

Lemma squeeze_ws_Forall b l :
  Forall (λ c, allowed c = true) l →
  Forall (λ c, allowed c = true ∧ is_ws c = false) (squeeze_go is_ws b l).
Proof.
  intros Hl. revert b. induction Hl as [|c l Hc _ IH]; intros b; simpl; [done|].
  destruct (is_ws c) eqn:Hw; [destruct b|]; auto.
Qed.

Lemma squeeze_go_none p b l :
  Forall (λ c, p c = false) l → squeeze_go p b l = l.
Proof.
  intros Hl. revert b. induction Hl as [|c l Hc _ IH]; intros b; simpl; [done|].
  by rewrite Hc, IH.
Qed.

(** Squeezing is idempotent: its result has no run left to shorten. *)
Lemma squeeze_go_idem l :
  (∀ b, squeeze_go is_hyphen b (squeeze_go is_hyphen true l) = squeeze_go is_hyphen true l)
  ∧ squeeze_go is_hyphen false (squeeze_go is_hyphen false l) = squeeze_go is_hyphen false l.
Proof.
  induction l as [|c l [IH1 IH2]]; simpl; [done|].
  destruct (is_hyphen c) eqn:Hc; simpl.
  - split; [done|]. by rewrite IH1.
  - rewrite Hc, IH2. done.
Qed.

Lemma squeeze_idem l : squeeze is_hyphen (squeeze is_hyphen l) = squeeze is_hyphen l.
Proof. apply squeeze_go_idem. Qed.

Lemma squeeze_go_lower b l :
  squeeze_go is_hyphen b (lower_l l) = lower_l (squeeze_go is_hyphen b l).
Proof.
  revert b. induction l as [|c l IH]; intros b; simpl; [done|].
  rewrite is_hyphen_lower. destruct (is_hyphen c); [destruct b|]; simpl; by rewrite IH.
Qed.

Lemma drop_ws_none l : Forall (λ c, is_ws c = false) l → drop_ws l = l.
Proof. intros [|c l' Hc _]; simpl; [done|]. by rewrite Hc. Qed.

Lemma trim_none l : Forall (λ c, is_ws c = false) l → trim_l l = l.
Proof.
  intros Hl. unfold trim_l. rewrite (drop_ws_none l Hl).
  rewrite drop_ws_none; [apply rev_involutive|].
  apply Forall_forall. intros c Hc. eapply Forall_forall in Hl; [done|].
  by apply list_elem_of_In, in_rev, list_elem_of_In.
Qed.

Lemma amp_none l : Forall (λ c, is_amp c = false) l → amp_l l = l.
Proof.
  unfold amp_l. induction 1 as [|c l Hc _ IH]; [done|].
  rewrite bind_cons, Hc, IH. done.
Qed.

Lemma strip_all l : Forall (λ c, allowed c = true) l → strip_l l = l.
Proof.
  unfold strip_l. induction 1 as [|c l Hc _ IH]; [done|].
  rewrite filter_cons_True by done. by rewrite IH.
Qed.

Lemma strip_allowed l : Forall (λ c, allowed c = true) (strip_l l).
Proof. apply Forall_forall. intros c Hc. by apply list_elem_of_filter in Hc as [? _]. Qed.

End JsFacts.

(** ** [toKebab] *)

Lemma toKebab_l_form l : kebab_form (toKebab_l l).
Proof.
  unfold toKebab_l, kebab_form. split.
  - apply Forall_fmap. apply squeeze_go_Forall.
    + reflexivity.
    + eapply Forall_impl; [apply squeeze_ws_Forall, strip_allowed|].
      intros c [??]; simpl. by apply lower_after_ws.
  - unfold Js.squeeze. rewrite squeeze_go_lower. f_equal. apply squeeze_idem.
Qed.

Lemma toKebab_l_fixed l : kebab_form l → toKebab_l l = l.
Proof.
  intros [Hc Hh]. unfold toKebab_l.
  rewrite trim_none by (eapply Forall_impl; [done|]; apply kebab_char_not_ws).
  rewrite amp_none by (eapply Forall_impl; [done|]; apply kebab_char_not_amp).
  rewrite strip_all by (eapply Forall_impl; [done|]; apply kebab_char_allowed).
  unfold Js.squeeze at 2.
  rewrite squeeze_go_none by (eapply Forall_impl; [done|]; apply kebab_char_not_ws).
  rewrite Hh. unfold Js.lower_l.
  clear Hh. induction Hc as [|c l Hc _ IH]; [done|].
  rewrite fmap_cons, IH, kebab_char_lower; done.
Qed.

(** C6. Basename normalisation is idempotent: for every string [s],
    [toKebab (toKebab s) = toKebab s]; and the declared basename
    [My File.md] normalises to [my-file.md]. *)
Theorem toKebab_idempotent :
  (∀ s : string, toKebab (toKebab s) = toKebab s)
  ∧ toKebab "My File.md" = "my-file.md"%string.
Proof.
  split; [|reflexivity].
  intros s. unfold toKebab. rewrite chars_str.
  f_equal. apply toKebab_l_fixed, toKebab_l_form.
Qed.

(** ** The processing loop of the lint tool *)

Section LintFacts.
Import Lint.
Context (data : document).

Local Abbreviation canonical := (canonical data).

Lemma truthy_Some (x : option string) s : truthy x = Some s → x = Some s ∧ s ≠ ""%string.
Proof. destruct x as [s'|]; simpl; [|done]. case_bool_decide; naive_solver. Qed.

Lemma truthy_of_Some s : s ≠ ""%string → truthy (Some s) = Some s.
Proof. intros. simpl. by rewrite bool_decide_false. Qed.

Lemma canonical_name a : name (canonical a) = name a.
Proof. reflexivity. Qed.

Local Arguments normalize : simpl never.

Lemma step_kept st a :
  kept (step data st a) = kept st ++ (canonical <$> survivors (seenNames st) [a])
  ∧ ∀ l, survivors (seenNames st) (a :: l)
         = survivors (seenNames st) [a] ++ survivors (seenNames (step data st a)) l.
Proof.
  unfold step. cbn [survivors].
  destruct (truthy (name a)) as [nm|] eqn:Hn.
  - case_bool_decide.
    + split; [by rewrite app_nil_r|done].
    + change (canonical <$> [a]) with [canonical a].
      unfold canonical, normalize_out, key. rewrite Hn. cbn [default from_option id].
      destruct (normalize data nm a) as [[out ps] mv]. done.
  - split; [by rewrite app_nil_r|done].
Qed.

Lemma kept_foldl l st :
  kept (foldl (step data) st l) = kept st ++ (canonical <$> survivors (seenNames st) l).
Proof.
  revert st. induction l as [|a l IH]; intros st.
  { by rewrite app_nil_r. }
  cbn [foldl]. rewrite IH. destruct (step_kept st a) as [-> Hs].
  by rewrite (Hs l), fmap_app, app_assoc.
Qed.

Lemma kept_process : kept (process data) = canonical <$> survivors ∅ (agents_of data).
Proof. unfold process. by rewrite kept_foldl. Qed.

Lemma survivors_sublist seen l : sublist (survivors seen l) l.
Proof.
  revert seen. induction l as [|a l IH]; intros seen; simpl; [done|].
  destruct (truthy (name a)); [case_bool_decide|]; by constructor.
Qed.

Lemma survivors_fresh seen l a :
  a ∈ survivors seen l → ∃ nm, name a = Some nm ∧ nm ≠ ""%string ∧ nm ∉ seen.
Proof.
  revert seen. induction l as [|b l IH]; intros seen; simpl; [by intros ?%elem_of_nil|].
  destruct (truthy (name b)) as [nm|] eqn:Hn; [case_bool_decide|]; try apply IH.
  intros [->|Ha]%elem_of_cons.
  - apply truthy_Some in Hn as [??]. eauto.
  - apply IH in Ha as (nm' & ? & ? & ?). exists nm'. set_solver.
Qed.

Lemma survivors_NoDup seen l : NoDup (name <$> survivors seen l).
Proof.
  revert seen. induction l as [|a l IH]; intros seen; simpl; [constructor|].
  destruct (truthy (name a)) as [nm|] eqn:Hn; [case_bool_decide|]; try apply IH.
  rewrite fmap_cons. constructor; [|apply IH].
  intros (b & Hb & Hin)%list_elem_of_fmap.
  apply survivors_fresh in Hin as (nm' & Hnm' & _ & Hfresh).
  apply truthy_Some in Hn as [Hn _]. rewrite Hn, Hnm' in Hb. set_solver.
Qed.

(** Every key of the input that was not met before has a survivor. *)
Lemma survivors_cover seen l a nm :
  a ∈ l → name a = Some nm → nm ≠ ""%string → nm ∉ seen →
  ∃ k, k ∈ survivors seen l ∧ name k = Some nm.
Proof.
  revert seen. induction l as [|b l IH]; intros seen Hin Ha Hne Hseen; simpl.
  { by apply elem_of_nil in Hin. }
  destruct (truthy (name b)) as [nb|] eqn:Hb.
  - apply truthy_Some in Hb as [Hb Hbne]. case_bool_decide as Hsb.
    + apply elem_of_cons in Hin as [->|Hin]; [congruence|]. by apply IH.
    + destruct (decide (nb = nm)) as [->|Hdiff].
      * exists b. split; [left|done].
      * apply elem_of_cons in Hin as [->|Hin]; [congruence|].
        assert (nm ∉ ({[nb]} : gset string) ∪ seen) as Hf.
        { intros [Heq%elem_of_singleton|?]%elem_of_union; [congruence|done]. }
        destruct (IH _ Hin Ha Hne Hf) as (k & ? & ?).
        exists k. split; [by right|done].
  - apply elem_of_cons in Hin as [->|Hin].
    + rewrite Ha, truthy_of_Some in Hb; done.
    + by apply IH.
Qed.

(** A survivor is the first record of the input that bears its key. *)
Lemma survivors_first seen l k :
  k ∈ survivors seen l →
  ∃ nm i, name k = Some nm ∧ list_find (λ a, name a = Some nm) l = Some (i, k).
Proof.
  revert seen. induction l as [|b l IH]; intros seen; simpl; [by intros ?%elem_of_nil|].
  intros Hk.
  assert (∀ s, k ∈ survivors s l → b ≠ k ∨ True →
               ∃ nm i, name k = Some nm ∧
                 (name b ≠ Some nm → list_find (λ a, name a = Some nm) (b :: l) = Some (i, k))) as Hrest.
  { intros s Hs _. destruct (IH s Hs) as (nm & i & Hnm & Hf).
    exists nm, (S i). split; [done|]. intros Hb. simpl.
    rewrite decide_False by done. by rewrite Hf. }
  destruct (truthy (name b)) as [nb|] eqn:Hb.
  - apply truthy_Some in Hb as [Hb Hbne]. case_bool_decide as Hsb.
    + pose proof (survivors_fresh _ _ _ Hk) as (nm' & Hnm' & _ & Hfresh).
      destruct (Hrest _ Hk) as (nm & i & Hnm & Hf); [by right|].
      exists nm, i. split; [done|]. apply Hf. rewrite Hb. intros [= ->].
      rewrite Hnm in Hnm'. by simplify_eq.
    + apply elem_of_cons in Hk as [->|Hk].
      * exists nb, 0. split; [done|]. simpl. by rewrite decide_True.
      * pose proof (survivors_fresh _ _ _ Hk) as (nm' & Hnm' & _ & Hfresh).
        destruct (Hrest _ Hk) as (nm & i & Hnm & Hf); [by right|].
        exists nm, i. split; [done|]. apply Hf. rewrite Hb. intros [= ->].
        rewrite Hnm in Hnm'. simplify_eq. set_solver.
  - destruct (Hrest _ Hk) as (nm & i & Hnm & Hf); [by right|].
    exists nm, i. split; [done|]. apply Hf. intros Hbn.
    pose proof (survivors_fresh _ _ _ Hk) as (nm' & Hnm' & Hne & _).
    rewrite Hnm in Hnm'. simplify_eq. rewrite Hbn, truthy_of_Some in Hb; done.
Qed.

End LintFacts.

(** C3. For every input record list, the accepted output holds exactly one
    record per identity key of the input: no key twice, every key once, each
    accepted record being the canonical form of the first input record that
    bears its key; and the accepted records stand in the order of the input
    records they come from. *)
Theorem duplicate_keys_first_wins (data : document) :
  let l := Lint.agents_of data in
  let ks := Lint.kept (Lint.process data) in
  NoDup (name <$> ks)
  ∧ (∀ nm a, a ∈ l → name a = Some nm → nm ≠ ""%string →
       ∃ k, k ∈ ks ∧ name k = Some nm)
  ∧ (∀ k, k ∈ ks →
       ∃ nm i a, name k = Some nm
         ∧ list_find (λ a, name a = Some nm) l = Some (i, a)
         ∧ k = canonical data a)
  ∧ (∃ l', sublist l' l ∧ ks = canonical data <$> l').
Proof.
  intros l ks. subst l ks. rewrite kept_process.
  assert (∀ s : list agent, name <$> (canonical data <$> s) = name <$> s) as Hname.
  { intros s. rewrite <- list_fmap_compose. done. }
  split; [|split; [|split]].
  - rewrite Hname. apply survivors_NoDup.
  - intros nm a Hin Ha Hne.
    destruct (survivors_cover ∅ _ a nm Hin Ha Hne) as (k & Hk & Hkn); [set_solver|].
    exists (canonical data k). split; [|done].
    apply list_elem_of_fmap. eauto.
  - intros k (a & -> & Ha)%list_elem_of_fmap.
    destruct (survivors_first _ _ _ Ha) as (nm & i & Hnm & Hf).
    exists nm, i, a. done.
  - eexists. split; [apply survivors_sublist|done].
Qed.

(** Scenario A: the record that declares [a.md] is kept, the one that
    declares [b.md] is reported as the one duplicate removed. *)
Example scenario_A :
  source_file <$> Lint.kept (Lint.process Demo.doc_dup)
    = [Some "01-core-development/a.md"%string]
  ∧ Lint.removed (Lint.process Demo.doc_dup)
    = [Lint.Removal "duplicate-name"
         (Agent (Some "x") (Some Demo.core) (Some "b.md") None [])]%string
  ∧ Lint.duplicates_removed (Lint.summarize Demo.doc_dup) = 1.
Proof. vm_compute. repeat split; reflexivity. Qed.

(** Scenario B: the alias [engineering] resolves to [01-core-development],
    the canonical path lies under it and a move from [foo.md] is planned. *)
Example scenario_B :
  Lint.kept (Lint.process Demo.doc_foo)
    = [Agent (Some "foo") (Some "01-core-development")
         (Some "01-core-development/foo.md") None []]%string
  ∧ Lint.moves (Lint.process Demo.doc_foo)
    = [Lint.Move "foo.md" "01-core-development/foo.md" "foo"]%string.
Proof. vm_compute. split; reflexivity. Qed.

(** ** Canonical paths *)

Lemma starts_l_app p l : Js.starts_l p (p ++ l) = true.
Proof. induction p as [|a p IH]; simpl; [done|]. by rewrite bool_decide_true, IH. Qed.

Lemma startsWith_app p s : Js.startsWith (p +:+ s) p = true.
Proof. unfold Js.startsWith. rewrite chars_app. apply starts_l_app. Qed.

Lemma normalize_prefixed data nm a :
  ∃ cat p, category (normalize_out data nm a) = Some cat
    ∧ source_file (normalize_out data nm a) = Some p
    ∧ Js.startsWith p (required_dir data cat +:+ "/") = true.
Proof.
  unfold normalize_out, Lint.normalize. cbn [fst category source_file].
  eexists _, _. split; [reflexivity|]. split; [reflexivity|].
  unfold required_dir. case_bool_decide as Hroot.
  - match goal with |- context [if Js.startsWith ?x ?y then _ else _] =>
      destruct (Js.startsWith x y) eqn:Hs; [done|] end.
    by rewrite <- string_app_assoc, startsWith_app.
  - unfold Lint.ensurePrefixedByCategory.
    match goal with |- context [if Js.startsWith ?x ?y then _ else _] =>
      destruct (Js.startsWith x y) eqn:Hs; [done|] end.
    by rewrite <- string_app_assoc, startsWith_app.
Qed.

(** C4. For every accepted record after normalisation, the canonical
    [source_file] starts with the directory of its resolved category
    followed by a slash, or with [superclaude-root/] when its category is
    the root category.  The directory of a category is the entry the
    [categories] table of the document holds for it, and the category
    itself when the table has no entry for it or an empty one. *)
Theorem canonical_path_prefixed (data : document) (k : agent) :
  k ∈ Lint.kept (Lint.process data) →
  ∃ cat p, category k = Some cat ∧ source_file k = Some p
    ∧ (cat = Lint.rootCategoryKey → Js.startsWith p "superclaude-root/" = true)
    ∧ (cat ≠ Lint.rootCategoryKey →
         match categories data ≫= (.!! cat) with
         | Some dir =>
             if bool_decide (dir = ""%string)
             then Js.startsWith p (cat +:+ "/") = true
             else Js.startsWith p (dir +:+ "/") = true
         | None => Js.startsWith p (cat +:+ "/") = true
         end).
Proof.
  rewrite kept_process. intros (a & -> & _)%list_elem_of_fmap.
  destruct (normalize_prefixed data (key a) a) as (cat & p & Hc & Hp & Hs).
  exists cat, p. split; [done|]. split; [done|].
  unfold required_dir in Hs. split; intros Hcat.
  - by rewrite bool_decide_true in Hs.
  - rewrite bool_decide_false in Hs by done.
    unfold Lint.getCatDir, Lint.categoryMapDeclared, or_else, truthy in Hs.
    destruct (categories data) as [tbl|]; cbn [mbind option_bind default from_option id] in *.
    + destruct (tbl !! cat) as [dir|]; [|done]. by case_bool_decide.
    + by rewrite lookup_empty in Hs.
Qed.

(** The record of scenario B under a table that sends its category to
    [agents/core]: category [engineering], declared path [foo.md],
    accepted under [agents/core/]. *)
Lemma canonical_path_prefixed_witness :
  let k := Agent (Some "foo") (Some Demo.core) (Some "agents/core/foo.md") None [] in
  k ∈ Lint.kept (Lint.process Cases.doc_mapped)
  ∧ categories Cases.doc_mapped ≫= (.!! Demo.core) = Some "agents/core"%string
  ∧ ∃ cat p, category k = Some cat ∧ source_file k = Some p
      ∧ (cat = Lint.rootCategoryKey → Js.startsWith p "superclaude-root/" = true)
      ∧ (cat ≠ Lint.rootCategoryKey →
           match categories Cases.doc_mapped ≫= (.!! cat) with
           | Some dir =>
               if bool_decide (dir = ""%string)
               then Js.startsWith p (cat +:+ "/") = true
               else Js.startsWith p (dir +:+ "/") = true
           | None => Js.startsWith p (cat +:+ "/") = true
           end).
Proof.
  intros k.
  assert (k ∈ Lint.kept (Lint.process Cases.doc_mapped)) as H by (vm_compute; left).
  split; [exact H|]. split; [reflexivity|].
  exact (canonical_path_prefixed Cases.doc_mapped k H).
Defined.

(** ** The lint tool as a whole *)

(** C7. Without [--fix] the lint tool writes nothing: the tree it leaves,
    with the registry document and any backup file in it, is the tree it
    was started on; and a run that reaches its end has printed the report
    and nothing else. *)
Theorem lint_without_fix_writes_nothing (h : host) (args : list string) (t : Fs.tree) :
  "--fix"%string ∉ args →
  tree_after (LintCli.main h args t) = t
  ∧ (ending (LintCli.main h args t) = Done →
       ∃ ymlPath raw data,
         Fs.readFileSync (cwd h) t ymlPath = inr raw
         ∧ LintCli.load h raw = Some data
         ∧ output (LintCli.main h args t) = LintCli.printReport data).
Proof.
  intros Hfix. unfold LintCli.main.
  destruct args as [|a args']; [by split|].
  destruct (truthy _) as [ymlPath|]; [|by split].
  destruct (Fs.readFileSync (cwd h) t ymlPath) as [e|raw] eqn:Hread; [by split|].
  destruct (LintCli.load h raw) as [data|] eqn:Hload; [|by split].
  rewrite bool_decide_false by done.
  split; [done|]. intros _. by exists ymlPath, raw, data.
Qed.

(** A report-only run on the tree of scenario B. *)
Lemma lint_without_fix_writes_nothing_witness :
  let r := LintCli.main (Demo.host_of Demo.doc_foo) ["improved-index.yml"%string]
             Demo.tree_both in
  ("--fix"%string ∉ ["improved-index.yml"%string])
  ∧ tree_after r = Demo.tree_both
  ∧ (ending r = Done →
       ∃ ymlPath raw data,
         Fs.readFileSync ["repo"%string] Demo.tree_both ymlPath = inr raw
         ∧ LintCli.load (Demo.host_of Demo.doc_foo) raw = Some data
         ∧ output r = LintCli.printReport data).
Proof.
  intros r.
  assert ("--fix"%string ∉ ["improved-index.yml"%string]) as H.
  { intros Hin. apply list_elem_of_singleton in Hin. discriminate. }
  split; [exact H|].
  exact (lint_without_fix_writes_nothing (Demo.host_of Demo.doc_foo)
           ["improved-index.yml"%string] Demo.tree_both H).
Defined.

(** C10. A parsed document without an [agents] array is processed as an
    empty record list: total, kept, removed, problems and moves are all 0,
    the report is its two head lines, and the run completes: without
    [--fix] it ends normally with the tree untouched, and with [--fix]
    (the [yaml] package present and both files writable) it ends normally
    after the two writes, with no move to apply. *)
Theorem missing_agents_is_empty_list (data : document) :
  no_agent_array data →
  Lint.summarize data = Lint.Summary 0 0 0 0 0 0
  ∧ Lint.moves (Lint.process data) = []
  ∧ LintCli.printReport data
    = ["=== Agent Registry Lint Report ===";
       "Total: 0 | Kept: 0 | Removed (dupes): 0 (0)"]%string
  ∧ (∀ h args t ymlPath raw,
       truthy (head (filter (λ a, Js.startsWith a "--" = false) args)) = Some ymlPath →
       Fs.readFileSync (cwd h) t ymlPath = inr raw →
       LintCli.load h raw = Some data →
       "--fix"%string ∉ args →
       LintCli.main h args t = Run (LintCli.printReport data) t Done)
  ∧ (∀ h apply ymlPath raw t log y t1 t2,
       yaml h = Some y →
       Fs.writeFileSync (cwd h) t (ymlPath +:+ ".bak") raw = inr t1 →
       Fs.writeFileSync (cwd h) t1 ymlPath (stringify y (Lint.result data)) = inr t2 →
       tree_after (LintCli.write_and_apply h apply ymlPath raw data t log) = t2
       ∧ ending (LintCli.write_and_apply h apply ymlPath raw data t log) = Done).
Proof.
  intros Hno.
  assert (Lint.agents_of data = []) as Hl.
  { unfold Lint.agents_of. unfold no_agent_array in Hno. by destruct (agents data). }
  assert (Lint.process data = Lint.init) as Hp.
  { unfold Lint.process. by rewrite Hl. }
  assert (Lint.summarize data = Lint.Summary 0 0 0 0 0 0) as Hs.
  { unfold Lint.summarize. by rewrite Hp, Hl. }
  assert (LintCli.printReport data
          = ["=== Agent Registry Lint Report ===";
             "Total: 0 | Kept: 0 | Removed (dupes): 0 (0)"]%string) as Hr.
  { unfold LintCli.printReport. rewrite Hs, Hp. reflexivity. }
  split; [done|]. split; [by rewrite Hp|]. split; [done|]. split.
  - intros h args t ymlPath raw Hy Hread Hload Hfix. unfold LintCli.main.
    destruct args as [|a args']; [done|].
    rewrite Hy, Hread, Hload. by rewrite bool_decide_false.
  - intros h ap ymlPath raw t log y t1 t2 Hyaml Hw1 Hw2.
    unfold LintCli.write_and_apply. rewrite Hw1, Hyaml, Hw2, Hp. done.
Qed.

(** A document with categories and no [agents] field. *)
Lemma missing_agents_is_empty_list_witness :
  no_agent_array Demo.doc_none
  ∧ Lint.summarize Demo.doc_none = Lint.Summary 0 0 0 0 0 0
  ∧ Lint.moves (Lint.process Demo.doc_none) = []
  ∧ LintCli.main (Demo.host_of Demo.doc_none) ["improved-index.yml"%string] Demo.tree_bare
    = Run ["=== Agent Registry Lint Report ===";
           "Total: 0 | Kept: 0 | Removed (dupes): 0 (0)"]%string Demo.tree_bare Done.
Proof.
  assert (no_agent_array Demo.doc_none) as H by exact I.
  split; [exact H|].
  destruct (missing_agents_is_empty_list Demo.doc_none H) as (Hs & Hm & Hr & Hrun & _).
  split; [exact Hs|]. split; [exact Hm|]. rewrite <- Hr.
  apply (Hrun (Demo.host_of Demo.doc_none) _ _ "improved-index.yml"%string "registry"%string);
    try (vm_compute; reflexivity).
  intros Hin. apply list_elem_of_singleton in Hin. discriminate.
Defined.

(** C1, on the code.  The registry declares [foo.md] for a record of
    category [engineering]; the tree holds [foo.md] and, already, a file at
    the canonical path [01-core-development/foo.md].  Run with [--fix
    --apply-moves], the move loop renames [foo.md] over the file that was
    there: its content is replaced, the declared file is gone, and the
    move is printed as done, not as skipped. *)
Theorem apply_moves_replaces_present_destination :
  let r := LintCli.main (Demo.host_of Demo.doc_foo)
             ["--fix"; "--apply-moves"; "improved-index.yml"]%string Demo.tree_both in
  Lint.moves (Lint.process Demo.doc_foo)
    = [Lint.Move "foo.md" "01-core-development/foo.md" "foo"]
  ∧ Fs.existsSync ["repo"%string] Demo.tree_both "01-core-development/foo.md" = true
  ∧ Fs.files Demo.tree_both !! ["repo"; Demo.core; "foo.md"]%string = Some "present"%string
  ∧ Fs.files (tree_after r) !! ["repo"; Demo.core; "foo.md"]%string = Some "declared"%string
  ∧ Fs.files (tree_after r) !! ["repo"; "foo.md"]%string = None
  ∧ ending r = Done
  ∧ drop 5 (output r)
    = ["mv foo.md -> 01-core-development/foo.md";
       "✔ Applied file moves where possible."]%string.
Proof. vm_compute. repeat split; reflexivity. Qed.

(** ** The move loop *)

Lemma prefixes_self p : p ∈ Fs.prefixes p.
Proof.
  induction p as [|n p IH]; simpl; [by left|].
  right. apply list_elem_of_fmap. eauto.
Qed.

Lemma mkdir_p_made t q t1 :
  Fs.mkdir_p t q = inr t1 →
  Fs.files t1 = Fs.files t
  ∧ (∀ a, a ∈ Fs.prefixes q → Fs.is_dir t1 a = true)
  ∧ (∀ a, Fs.is_dir t a = true → Fs.is_dir t1 a = true).
Proof.
  unfold Fs.mkdir_p. case_bool_decide; [done|]. intros [= <-]. simpl.
  split; [done|]. unfold Fs.is_dir. simpl.
  split; intros a Ha; apply bool_decide_eq_true; apply elem_of_union.
  - right. by apply elem_of_list_to_set.
  - left. by apply bool_decide_eq_true in Ha.
Qed.

(** Nothing in a turn looks at the destination: when the declared source
    is a regular file and the destination is no directory, the rename goes
    through and the destination holds the content of the source, whatever
    was there before. *)
Lemma move_one_ignores_destination cwd t m c :
  Lint.from m ≠ ""%string →
  Fs.files t !! Path.resolve cwd (Lint.from m) = Some c →
  Path.resolve cwd (Lint.from m) ≠ Path.resolve cwd (Lint.to m) →
  Fs.is_dir t (Path.resolve cwd (Lint.to m)) = false →
  Fs.is_dir t (Fs.parent (Path.resolve cwd (Lint.to m))) = true →
  ∃ t', LintCli.move_one cwd t m = (t', ["mv " +:+ Lint.from m +:+ " -> " +:+ Lint.to m])
      ∧ Fs.files t' !! Path.resolve cwd (Lint.to m) = Some c
      ∧ Fs.files t' !! Path.resolve cwd (Lint.from m) = None.
Proof.
  intros Hne Hc Hdiff Hnd Hpd. unfold LintCli.move_one.
  assert (Fs.existsSync cwd t (Lint.from m) = true) as ->.
  { unfold Fs.existsSync, Fs.present, Fs.is_file. rewrite bool_decide_false by done.
    rewrite Hc. by rewrite bool_decide_true. }
  unfold Fs.renameSync, Fs.rename. rewrite Hc, bool_decide_false, Hnd, Hpd by done.
  eexists. split; [done|]. simpl.
  split; [apply lookup_insert_eq|]. by rewrite lookup_insert_ne, lookup_delete_eq.
Qed.

(** The loop over a list in two parts: the second part runs on what the
    first leaves, unless an exception has ended the first. *)
Lemma apply_moves_app cwd pre post t log :
  LintCli.apply_moves cwd (pre ++ post) t log
  = match LintCli.apply_moves cwd pre t log with
    | (log1, t1, Done) => LintCli.apply_moves cwd post t1 log1
    | r => r
    end.
Proof.
  revert t log. induction pre as [|m pre IH]; intros t log; [done|].
  cbn [app LintCli.apply_moves].
  destruct (Fs.mkdirSync cwd t (Path.dirname (Lint.to m))) as [e|t1]; [done|].
  destruct (LintCli.move_one cwd t1 m) as [t2 lines]. apply IH.
Qed.

(** [mkdirSync] throws exactly when a regular file stands on the way. *)
Lemma mkdir_p_cases t q :
  match Fs.mkdir_p t q with
  | inl _ => ∃ a, a ∈ Fs.prefixes q ∧ Fs.is_file t a = true
  | inr _ => ∀ a, a ∈ Fs.prefixes q → Fs.is_file t a = false
  end.
Proof.
  unfold Fs.mkdir_p. case_bool_decide as Hex.
  - apply Exists_exists in Hex as (a & Ha & Hf). eauto.
  - intros a Ha. destruct (Fs.is_file t a) eqn:Hf; [|done].
    exfalso. apply Hex, Exists_exists. eauto.
Qed.

(** C8, as the code has it.  In the move loop of [--fix --apply-moves],
    every move the loop reaches has the directory of its destination made,
    with every directory on the way to it, before its source is looked
    for.  A move is reached when no [mkdirSync] of an earlier move has
    thrown.  At a move that is reached, either [mkdirSync] throws and the
    run ends there, with nothing made for this move or for the later ones;
    or the directories exist from then on in the turn, no file has
    changed, and when neither the declared source nor its basename is
    found the turn prints its [(skip)] line and hands the tree with the
    new directories to the next move.  For a destination that is a plain
    path string, [mkdirSync] throws exactly when a regular file stands on
    the way to the directory. *)
Theorem destination_dir_made_before_source_check
    (cwd : list string) (pre : list Lint.move) (m : Lint.move) (post : list Lint.move)
    (t : Fs.tree) (log : list string) (t1 : Fs.tree) (log1 : list string) :
  LintCli.apply_moves cwd pre t log = (log1, t1, Done) →
  let toDir := Path.resolve cwd (Path.dirname (Lint.to m)) in
  let whole := LintCli.apply_moves cwd (pre ++ m :: post) t log in
  match Fs.mkdirSync cwd t1 (Path.dirname (Lint.to m)) with
  | inl e =>
      (plain_path (Lint.to m) = true →
       ∃ a, a ∈ Fs.prefixes toDir ∧ Fs.is_file t1 a = true)
      ∧ whole = (log1, t1, Uncaught (Fs.describe e +:+ ", mkdir '"
                                       +:+ Path.dirname (Lint.to m) +:+ "'"))
  | inr t2 =>
      (plain_path (Lint.to m) = true →
       ∀ a, a ∈ Fs.prefixes toDir → Fs.is_file t1 a = false)
      ∧ Fs.is_dir t2 toDir = true
      ∧ (∀ d, d ∈ Fs.prefixes toDir → Fs.is_dir t2 d = true)
      ∧ (∀ d, Fs.is_dir t1 d = true → Fs.is_dir t2 d = true)
      ∧ Fs.files t2 = Fs.files t1
      ∧ whole = LintCli.apply_moves cwd post (LintCli.move_one cwd t2 m).1
                  (log1 ++ (LintCli.move_one cwd t2 m).2)
      ∧ (Fs.existsSync cwd t2 (Lint.from m) = false →
         Fs.existsSync cwd t2 (Path.basename (Lint.from m)) = false →
         whole = LintCli.apply_moves cwd post t2
                   (log1 ++ ["(skip) could not find file to move: " +:+ Lint.from m]))
  end.
Proof.
  intros Hpre toDir whole. unfold whole. rewrite apply_moves_app, Hpre.
  cbn [LintCli.apply_moves].
  pose proof (mkdir_p_cases t1 toDir) as Hcases. unfold toDir in *.
  unfold Fs.mkdirSync in *.
  destruct (Fs.mkdir_p t1 (Path.resolve cwd (Path.dirname (Lint.to m)))) as [e|t2] eqn:Hmk.
  { by split. }
  apply mkdir_p_made in Hmk as (Hf & Hd & Hold).
  split; [by intros _|]. split; [apply Hd, prefixes_self|]. split; [done|]. split; [done|].
  split; [done|]. split.
  - by destruct (LintCli.move_one cwd t2 m) as [t3 lines].
  - intros Hfrom Hbase. unfold LintCli.move_one. by rewrite Hfrom, Hbase.
Qed.

(** Two moves on a tree that holds neither source: the second move is
    reached, its directory [04-quality-security] is made, and the run
    goes on to its end with nothing moved. *)
Lemma destination_dir_made_before_source_check_witness :
  let cwd := ["repo"%string] in
  let m1 := Lint.Move "foo.md" "01-core-development/foo.md" "foo" in
  let m2 := Lint.Move "bar.md" "04-quality-security/bar.md" "bar" in
  let t1 := Demo.tree_of [(["repo"; "improved-index.yml"], "registry")]%string
              [["repo"; Demo.core]]%string in
  let t2 := Demo.tree_of [(["repo"; "improved-index.yml"], "registry")]%string
              [["repo"; Demo.core]; ["repo"; "04-quality-security"]]%string in
  LintCli.apply_moves cwd [m1] Demo.tree_bare []
    = (["(skip) could not find file to move: foo.md"%string], t1, Done)
  ∧ Fs.is_dir t1 ["repo"; "04-quality-security"]%string = false
  ∧ Fs.is_dir t2 ["repo"; "04-quality-security"]%string = true
  ∧ LintCli.apply_moves cwd [m1; m2] Demo.tree_bare []
    = (["(skip) could not find file to move: foo.md";
        "(skip) could not find file to move: bar.md"]%string, t2, Done).
Proof.
  intros cwd m1 m2 t1 t2.
  assert (LintCli.apply_moves cwd [m1] Demo.tree_bare []
          = (["(skip) could not find file to move: foo.md"%string], t1, Done)) as Hpre
    by (vm_compute; reflexivity).
  split; [exact Hpre|]. split; [vm_compute; reflexivity|].
  pose proof (destination_dir_made_before_source_check cwd [m1] m2 [] Demo.tree_bare []
                t1 _ Hpre) as H.
  cbv zeta in H.
  assert (Fs.mkdirSync cwd t1 (Path.dirname (Lint.to m2)) = inr t2) as Hmk
    by (vm_compute; reflexivity).
  rewrite Hmk in H. destruct H as (_ & Hdir & _ & _ & _ & _ & Hskip).
  split; [exact Hdir|]. apply Hskip; vm_compute; reflexivity.
Defined.

(** C8 fails as stated, on a run.  The registry plans two moves, to
    [01-core-development/foo.md] and to [04-quality-security/bar.md], and
    the tree holds a regular file named [01-core-development].  The
    [mkdirSync] of the first move throws, nothing catches it, and the run
    ends there: the directory of the second move is never made. *)
Lemma blocked_directory_ends_the_moves :
  let r := LintCli.main (Demo.host_of Cases.doc_two_dirs)
             ["--fix"; "--apply-moves"; "improved-index.yml"]%string Cases.tree_blocked in
  Lint.moves (Lint.process Cases.doc_two_dirs)
    = [Lint.Move "foo.md" "01-core-development/foo.md" "foo";
       Lint.Move "bar.md" "04-quality-security/bar.md" "bar"]
  ∧ Fs.is_file Cases.tree_blocked ["repo"; Demo.core]%string = true
  ∧ ending r = Uncaught "EEXIST: file already exists, mkdir '01-core-development'"
  ∧ Fs.is_dir (tree_after r) ["repo"; Demo.core]%string = false
  ∧ Fs.is_dir (tree_after r) ["repo"; "04-quality-security"]%string = false.
Proof. vm_compute. repeat split; reflexivity. Qed.

(** The same on a run: the registry declares [foo.md], which is nowhere in
    the tree; the run creates [01-core-development] and moves nothing. *)
Example unresolved_move_leaves_directory :
  let r := LintCli.main (Demo.host_of Demo.doc_foo)
             ["--fix"; "--apply-moves"; "improved-index.yml"]%string Demo.tree_bare in
  Fs.is_dir Demo.tree_bare ["repo"; Demo.core]%string = false
  ∧ Fs.is_dir (tree_after r) ["repo"; Demo.core]%string = true
  ∧ ending r = Done
  ∧ drop 5 (output r)
    = ["(skip) could not find file to move: foo.md";
       "✔ Applied file moves where possible."]%string.
Proof. vm_compute. repeat split; reflexivity. Qed.

(** ** The rescue tool *)

(** *** [walk] visits the whole tree

    The recursion of [walk] is cut by its fuel; one unit beyond the depth
    of the tree is where it ends by itself, so more fuel changes nothing. *)

Lemma strip_prefix_length pre p r :
  Fs.strip_prefix pre p = Some r → length p = length pre + length r.
Proof.
  revert p. induction pre as [|a pre IH]; intros [|b p]; simpl; try done.
  - by intros [= <-].
  - by intros [= <-].
  - case_bool_decide; [|done]. intros Hs. apply IH in Hs. lia.
Qed.

Lemma depth_bound t p :
  p ∈ (map_to_list (Fs.files t)).*1 ++ elements (Fs.dirs t) → length p ≤ Fs.depth t.
Proof.
  unfold Fs.depth. generalize ((map_to_list (Fs.files t)).*1 ++ elements (Fs.dirs t)).
  intros l. induction l as [|q l IH]; [by intros ?%elem_of_nil|].
  rewrite fmap_cons. cbn [foldr].
  intros [->|Hin]%elem_of_cons; [lia|]. apply IH in Hin. lia.
Qed.

Lemma omap_none {A B} (f : A → option B) l : (∀ x, x ∈ l → f x = None) → omap f l = [].
Proof.
  induction l as [|x l IH]; intros H; simpl; [done|].
  rewrite (H x) by left. apply IH. intros y Hy. apply H. by right.
Qed.

Lemma readdir_deep t dir : Fs.depth t ≤ length dir → Fs.readdirSync t dir = [].
Proof.
  intros Hd.
  assert (∀ p, p ∈ (map_to_list (Fs.files t)).*1 ++ elements (Fs.dirs t) →
               Fs.child_name dir p = None) as Hnone.
  { intros p Hp%depth_bound. unfold Fs.child_name.
    destruct (Fs.strip_prefix dir p) as [[|n [|??]]|] eqn:Hs; try done.
    apply strip_prefix_length in Hs. simpl in Hs. lia. }
  unfold Fs.readdirSync. rewrite !omap_none; [done| |].
  - intros p Hp. rewrite Hnone; [done|]. apply elem_of_app. by right.
  - intros p Hp. rewrite Hnone; [done|]. apply elem_of_app. by left.
Qed.

Lemma walk_more_fuel t n dir dirS :
  Fs.depth t < length dir + n →
  Rescue.walk n t dir dirS = Rescue.walk (S n) t dir dirS.
Proof.
  revert dir dirS. induction n as [|n IH]; intros dir dirS Hd.
  - cbn [Rescue.walk]. rewrite readdir_deep by lia. done.
  - change (Rescue.walk (S (S n)) t dir dirS) with
      (mjoin ((λ e : string * bool,
                 let p := Path.join dirS e.1 in
                 if e.2 then Rescue.walk (S n) t (dir ++ [e.1]) p else [p])
              <$> Fs.readdirSync t dir)).
    cbn [Rescue.walk]. f_equal. apply list_fmap_ext. intros i e _. simpl.
    destruct e.2; [|done]. apply IH. rewrite length_app. simpl. lia.
Qed.

Lemma walk_enough_fuel t n dir dirS :
  Rescue.walk (S (Fs.depth t) + n) t dir dirS = Rescue.walk (S (Fs.depth t)) t dir dirS.
Proof.
  induction n as [|n IH]; [by rewrite Nat.add_0_r|].
  rewrite Nat.add_succ_r, <- walk_more_fuel by lia. exact IH.
Qed.





(** Without [improved-index.yml] in the tree, the run ends where the file
    is read, by the exception of [readFileSync] on that name. *)
Example rescue_without_registry_file :
  let r := Rescue.main (Demo.host_of Demo.doc_foo) None (Demo.tree_of [] []) in
  ending r = Uncaught "ENOENT: no such file or directory, open 'improved-index.yml'"
  ∧ output r = [] ∧ tree_after r = Demo.tree_of [] [].
Proof. vm_compute. repeat split; reflexivity. Qed.

(** The same on a run: with [improved-index.yml] in place, the tool called
    without an argument reads it and ends with its summary line. *)
Example rescue_without_argument_runs :
  let r := Rescue.main (Demo.host_of Demo.doc_foo) None Demo.tree_both in
  ending r = Done
  ∧ output r = ["Done. moved=0, skipped=1, unresolved_missing=0"]%string.
Proof. vm_compute. split; reflexivity. Qed.


Lemma existsSync_false cwd t p :
  p ≠ ""%string → Fs.existsSync cwd t p = false →
  Fs.files t !! Path.resolve cwd p = None ∧ Fs.is_dir t (Path.resolve cwd p) = false.
Proof.
  intros Hp. unfold Fs.existsSync, Fs.present, Fs.is_file.
  rewrite bool_decide_false by done.
  intros [Hf Hd]%orb_false_elim. split; [|done].
  apply bool_decide_eq_false in Hf. by apply eq_None_not_Some.
Qed.




(** ** Canonical basenames *)

Section BasenameFacts.
Import Js Path.

Lemma starts_l_split p l : starts_l p l = true → l = p ++ drop (length p) l.
Proof.
  revert l. induction p as [|a p IH]; intros [|b l]; simpl; try done.
  intros [Hab Hs]%andb_prop. apply bool_decide_eq_true in Hab as ->.
  f_equal. by apply IH.
Qed.

Lemma indexOf_l_eq pat l :
  indexOf_l pat l
  = if starts_l pat l then Some 0
    else match l with [] => None | _ :: l' => S <$> indexOf_l pat l' end.
Proof. by destruct l. Qed.

Lemma replace_l_eq pat rep l :
  replace_l pat rep l
  = if starts_l pat l then rep ++ drop (length pat) l
    else match l with [] => [] | c :: l' => c :: replace_l pat rep l' end.
Proof. by destruct l. Qed.

Lemma replace_l_at pat rep l i :
  indexOf_l pat l = Some i →
  replace_l pat rep l = take i l ++ rep ++ drop (i + length pat) l
  ∧ starts_l pat (drop i l) = true.
Proof.
  revert i. induction l as [|c l IH]; intros i;
    rewrite indexOf_l_eq, replace_l_eq; destruct (starts_l pat _) eqn:Hs.
  - by intros [= <-].
  - done.
  - by intros [= <-].
  - destruct (indexOf_l pat l) as [j|] eqn:Hj; [|done].
    intros [= <-]. destruct (IH j eq_refl) as [-> ?]. done.
Qed.

Lemma length_chars s : length (chars s) = String.length s.
Proof. induction s as [|a s IH]; simpl; [done|]. by rewrite IH. Qed.

Lemma take_segment_free l : Forall (λ c, is_slash c = false) (take_segment l).
Proof.
  induction l as [|c l IH]; simpl; [done|].
  destruct (is_slash c) eqn:Hc; [done|]. by constructor.
Qed.

Lemma take_segment_app x l :
  Forall (λ c, is_slash c = false) x → take_segment (x ++ l) = x ++ take_segment l.
Proof. induction 1 as [|c x Hc _ IH]; simpl; [done|]. by rewrite Hc, IH. Qed.

Lemma Forall_rev {A} (P : A → Prop) l : Forall P l → Forall P (rev l).
Proof.
  intros Hl. apply Forall_forall. intros c Hc. eapply Forall_forall in Hl; [done|].
  by apply list_elem_of_In, in_rev, list_elem_of_In.
Qed.

Lemma basename_l_free l : Forall (λ c, is_slash c = false) (basename_l l).
Proof. unfold basename_l. apply Forall_rev, take_segment_free. Qed.

(** The basename of a path that ends in a name [x] without slash. *)
Lemma basename_l_app d x :
  x ≠ [] → Forall (λ c, is_slash c = false) x →
  basename_l (d ++ x) = rev (take_segment (rev d)) ++ x.
Proof.
  intros Hx Hfree. unfold basename_l. rewrite rev_app_distr.
  assert (drop_slashes (rev x ++ rev d) = rev x ++ rev d) as ->.
  { destruct (rev x) as [|c r] eqn:Hr.
    - apply (f_equal (@rev _)) in Hr. rewrite rev_involutive in Hr. done.
    - simpl. apply Forall_rev in Hfree. rewrite Hr in Hfree.
      apply Forall_cons in Hfree as [-> _]. done. }
  rewrite take_segment_app by by apply Forall_rev.
  by rewrite rev_app_distr, rev_involutive.
Qed.

(** Replacing the last name of a path by another keeps what precedes it. *)
Lemma basename_l_swap d b x :
  b ≠ [] → basename_l (d ++ b) = b →
  x ≠ [] → Forall (λ c, is_slash c = false) x →
  basename_l (d ++ x) = x.
Proof.
  intros Hb Hbase Hx Hfree.
  rewrite basename_l_app in Hbase; [|done|rewrite <- Hbase; apply basename_l_free].
  rewrite basename_l_app by done.
  assert (rev (take_segment (rev d)) = []) as ->; [|done].
  apply (f_equal length) in Hbase. rewrite length_app in Hbase.
  apply nil_length_inv. lia.
Qed.

Lemma basename_under dir x :
  x ≠ [] → Forall (λ c, is_slash c = false) x →
  basename_l (chars (dir +:+ "/") ++ x) = x.
Proof.
  intros Hx Hfree. rewrite basename_l_app by done.
  rewrite chars_app, rev_app_distr. done.
Qed.

Lemma is_slash_lower c : is_slash (lower_char c) = is_slash c.
Proof. each_char c. Qed.

Lemma toKebab_l_free l :
  Forall (λ c, is_slash c = false) l → Forall (λ c, is_slash c = false) (toKebab_l l).
Proof.
  intros Hl. unfold toKebab_l. apply Forall_fmap.
  assert (Forall (λ c, is_slash c = false) (trim_l l)) as Ht.
  { unfold trim_l. apply Forall_rev.
    assert (∀ r, Forall (λ c, is_slash c = false) r →
                 Forall (λ c, is_slash c = false) (drop_ws r)) as Hdrop.
    { induction 1 as [|c r Hc Hr IH]; simpl; [done|]. destruct (is_ws c); [done|by constructor]. }
    by apply Hdrop, Forall_rev, Hdrop. }
  assert (Forall (λ c, is_slash c = false) (strip_l (amp_l (trim_l l)))) as Hs.
  { apply Forall_forall. intros c [_ Hc]%list_elem_of_filter.
    unfold amp_l in Hc. apply list_elem_of_bind in Hc as (c' & Hc & Hc').
    eapply Forall_forall in Ht; [|done].
    destruct (is_amp c').
    - revert Hc. rewrite !elem_of_cons, elem_of_nil. by intros [->|[->|[->|[]]]].
    - by apply list_elem_of_singleton in Hc as ->. }
  eapply Forall_impl.
  - apply squeeze_go_Forall; [|apply squeeze_go_Forall; [|exact Hs]]; reflexivity.
  - intros c Hc. simpl. by rewrite is_slash_lower.
Qed.

End BasenameFacts.

Lemma canonical_source_file data a :
  ∃ cat, category (canonical data a) = Some cat
    ∧ source_file (canonical data a) = Some (canonical_path data cat (declared_path a)).
Proof. eexists. split; reflexivity. Qed.

Lemma toKebab_chars s : Js.chars (toKebab s) = toKebab_l (Js.chars s).
Proof. unfold toKebab. apply chars_str. Qed.

Lemma str_inj l1 l2 : Js.str l1 = Js.str l2 → l1 = l2.
Proof. intros H. apply (f_equal Js.chars) in H. by rewrite !chars_str in H. Qed.

(** When the declared basename stands at the end of the declared path only
    and does not normalise to nothing, the canonical path ends in its
    normal form. *)
Lemma canonical_path_basename data cat src :
  basename_last src → toKebab (Path.basename src) ≠ ""%string →
  Path.basename (canonical_path data cat src) = toKebab (Path.basename src).
Proof.
  unfold basename_last, indexOf. rewrite <- !length_chars.
  unfold Path.basename at 1 2 3. rewrite !chars_str.
  set (cs := Js.chars src). set (b := Path.basename_l cs).
  intros Hidx Hne.
  assert (toKebab (Path.basename src) = Js.str (toKebab_l b)) as Hnb.
  { unfold toKebab, Path.basename. by rewrite chars_str. }
  set (nb := toKebab_l b) in *.
  assert (nb ≠ []) as Hnb_ne.
  { intros Hn. apply Hne. unfold toKebab, Path.basename. fold cs b. rewrite chars_str.
    fold nb. by rewrite Hn. }
  assert (b ≠ []) as Hb_ne.
  { intros Hb. apply Hnb_ne. unfold nb. by rewrite Hb. }
  assert (Forall (λ c, Path.is_slash c = false) nb) as Hfree.
  { apply toKebab_l_free, basename_l_free. }
  set (i := length cs - length b) in *.
  destruct (replace_l_at b nb cs i Hidx) as [Hrep Hst].
  apply starts_l_split in Hst.
  assert (length b ≤ length cs) as Hlen.
  { apply (f_equal length) in Hst. rewrite length_app, !length_drop in Hst. lia. }
  assert (drop i cs = b) as Hdrop.
  { rewrite Hst. rewrite (nil_length_inv (drop (length b) (drop i cs))).
    - apply app_nil_r.
    - rewrite !length_drop. lia. }
  assert (cs = take i cs ++ b) as Hcs.
  { by rewrite <- Hdrop, take_drop. }
  rewrite drop_ge, app_nil_r in Hrep by lia.
  set (d := take i cs) in *.
  assert (Path.basename_l (d ++ nb) = nb) as Hswap.
  { apply (basename_l_swap d b); try done. by rewrite <- Hcs. }
  assert (Js.chars (Js.replace src (Path.basename src) (toKebab (Path.basename src))) = d ++ nb) as Hnorm0.
  { unfold Js.replace. rewrite chars_str, toKebab_chars.
    unfold Path.basename. rewrite chars_str. exact Hrep. }
  assert (∀ dir, Path.basename (dir +:+ "/" +:+ Js.str nb) = Js.str nb) as Hunder.
  { intros dir. unfold Path.basename. f_equal.
    rewrite <- string_app_assoc, chars_app, chars_str. by apply basename_under. }
  rewrite Hnb.
  unfold canonical_path, Lint.ensurePrefixedByCategory. rewrite Hnb.
  assert (Path.basename (Js.replace src (Path.basename src) (Js.str nb)) = Js.str nb) as Hb0.
  { unfold Path.basename at 1. f_equal. rewrite <- Hnb, Hnorm0. exact Hswap. }
  case_bool_decide.
  - destruct (Js.startsWith _ _); [exact Hb0|apply Hunder].
  - destruct (Js.startsWith _ _); [exact Hb0|]. rewrite Hb0. apply Hunder.
Qed.

(** C5 fails as stated: two records with the names [a] and [b] that declare
    the same path [x.md] are both accepted, with the same canonical path
    [01-core-development/x.md].  (And a record that declares [A/A] is
    accepted with the canonical basename [A]: the replacement of the
    basename has hit the directory [A].) *)
Lemma accepted_paths_may_coincide :
  (∃ k1 k2,
     Lint.kept (Lint.process Demo.doc_shared) = [k1; k2]
     ∧ name k1 = Some "a"%string ∧ name k2 = Some "b"%string
     ∧ source_file k1 = Some "01-core-development/x.md"%string
     ∧ source_file k2 = Some "01-core-development/x.md"%string)
  ∧ source_file <$> Lint.kept (Lint.process Demo.doc_upper)
    = [Some "01-core-development/A"%string].
Proof. split; [eexists _, _|]; vm_compute; repeat split; reflexivity. Qed.

(** C5, as the code has it.  The accepted records have pairwise distinct
    identity keys (nothing compares their paths).  Each accepted record
    comes from an input record; when the basename of its declared path
    stands only at the end of that path and does not normalise to the empty
    string, the basename of its canonical path is [toKebab] of the declared
    basename, which is in kebab form: lower-case, without whitespace, and
    without two hyphens in a row. *)
Theorem accepted_keys_distinct_basenames_kebab (data : document) :
  NoDup (name <$> Lint.kept (Lint.process data))
  ∧ ∀ k, k ∈ Lint.kept (Lint.process data) →
      ∃ a, a ∈ Lint.agents_of data ∧ k = canonical data a
        ∧ (basename_last (declared_path a) →
           toKebab (Path.basename (declared_path a)) ≠ ""%string →
           ∃ p, source_file k = Some p
             ∧ Path.basename p = toKebab (Path.basename (declared_path a))
             ∧ kebab_form (Js.chars (Path.basename p))
             ∧ Forall (λ c, Js.is_upper c = false ∧ Js.is_ws c = false)
                 (Js.chars (Path.basename p))).
Proof.
  rewrite kept_process. split.
  - rewrite <- list_fmap_compose. apply survivors_NoDup.
  - intros k (a & -> & Ha)%list_elem_of_fmap. exists a.
    split; [eapply elem_of_sublist; [done|apply survivors_sublist]|].
    split; [done|]. intros Hlast Hne.
    destruct (canonical_source_file data a) as (cat & _ & Hp).
    eexists. split; [exact Hp|].
    rewrite (canonical_path_basename _ _ _ Hlast Hne).
    split; [done|]. rewrite toKebab_chars.
    pose proof (toKebab_l_form (Js.chars (Path.basename (declared_path a)))) as Hform.
    split; [done|]. destruct Hform as [Hchars _].
    eapply Forall_impl; [exact Hchars|]. intros c Hc. simpl.
    split; [by apply kebab_char_not_upper|by apply kebab_char_not_ws].
Qed.

(** The declared path [docs/My File.md] of scenario C: its basename stands
    at its end only, and the canonical basename is [my-file.md]. *)
Example canonical_basename_my_file :
  let a := Agent (Some "c") None (Some "docs/My File.md"%string) None [] in
  basename_last (declared_path a)
  ∧ source_file (canonical Demo.doc_none a) = Some "01-core-development/my-file.md"%string.
Proof. split; reflexivity. Qed.

(** Where the declared basename occurs earlier in the declared path, the
    replacement lands there: the path [A/A] keeps its upper-case basename. *)
Example canonical_basename_first_occurrence :
  let a := Agent (Some "a") None (Some "A/A"%string) None [] in
  indexOf (declared_path a) (Path.basename (declared_path a)) = Some 0
  ∧ source_file (canonical Demo.doc_none a) = Some "01-core-development/A"%string.
Proof. split; reflexivity. Qed.


(** * Further properties of the two tools *)

(** ** The processing loop: what each record adds *)

Section LoopFacts.
Import Lint.
Context (data : document).

Lemma step_survivor st a nm :
  truthy (name a) = Some nm → nm ∉ seenNames st →
  step data st a
  = State (problems st ++ (normalize data nm a).1.2) (moves st ++ (normalize data nm a).2)
          (kept st ++ [(normalize data nm a).1.1]) (removed st) ({[nm]} ∪ seenNames st).
Proof.
  intros Hn Hs. unfold step. rewrite Hn, bool_decide_false by done.
  by destruct (normalize data nm a) as [[out ps] mv].
Qed.

Lemma step_duplicate st a nm :
  truthy (name a) = Some nm → nm ∈ seenNames st →
  step data st a
  = State (problems st) (moves st) (kept st)
          (removed st ++ [Removal "duplicate-name" a]) (seenNames st).
Proof. intros Hn Hs. unfold step. by rewrite Hn, bool_decide_true. Qed.

Lemma step_nameless st a :
  truthy (name a) = None →
  step data st a
  = State (problems st ++ [Problem "error" "Agent without name" None (Some a)])
          (moves st) (kept st) (removed st) (seenNames st).
Proof. intros Hn. unfold step. by rewrite Hn. Qed.

(** The three cases of a turn. *)
Lemma step_cases st a :
  (∃ nm, truthy (name a) = Some nm ∧ nm ∉ seenNames st)
  ∨ (∃ nm, truthy (name a) = Some nm ∧ nm ∈ seenNames st)
  ∨ truthy (name a) = None.
Proof.
  destruct (truthy (name a)) as [nm|]; [|by right; right].
  destruct (decide (nm ∈ seenNames st)); eauto.
Qed.

Lemma normalize_warnings nm a :
  Forall (λ p, level p = "warn"%string) (normalize data nm a).1.2.
Proof.
  unfold normalize. cbn [fst snd].
  repeat apply Forall_app_2.
  - match goal with |- context [if ?b then _ else _] => destruct b end; repeat constructor.
  - case_bool_decide; repeat constructor.
  - destruct (truthy (description a)) as [d|]; [|constructor].
    destruct (160 <? String.length d); repeat constructor.
Qed.

Lemma errors_normalize nm a : errors (normalize data nm a).1.2 = [].
Proof.
  unfold errors. pose proof (normalize_warnings nm a) as H.
  induction H as [|p ps Hp _ IH]; [done|].
  rewrite filter_cons_False; [done|]. rewrite Hp. discriminate.
Qed.

Lemma errors_nameless a :
  length (errors [Problem "error" "Agent without name" None (Some a)]) = 1.
Proof. reflexivity. Qed.

Lemma errors_app ps qs : errors (ps ++ qs) = errors ps ++ errors qs.
Proof. unfold errors. apply filter_app. Qed.

(** Every record of the input goes to exactly one of [kept], [removed] and
    the errors, and [removed] only ever takes duplicates. *)
Lemma foldl_accounts l st :
  let st' := foldl (step data) st l in
  length (kept st') + length (removed st') + length (errors (problems st'))
  = length (kept st) + length (removed st) + length (errors (problems st)) + length l
  ∧ (Forall (λ r, reason r = "duplicate-name"%string) (removed st) →
     Forall (λ r, reason r = "duplicate-name"%string) (removed st')).
Proof.
  revert st. induction l as [|a l IH]; intros st; cbn [foldl].
  { cbn zeta. split; [cbn [length]; lia|done]. }
  destruct (IH (step data st a)) as [Hlen Hdup]. cbn zeta in *.
  destruct (step_cases st a) as [(nm & Hn & Hs)|[(nm & Hn & Hs)|Hn]].
  - rewrite (step_survivor _ _ _ Hn Hs) in *. cbn [kept removed problems] in *.
    rewrite errors_app, errors_normalize, app_nil_r, length_app in Hlen. cbn [length] in Hlen.
    cbn [length]. split; [lia|done].
  - rewrite (step_duplicate _ _ _ Hn Hs) in *. cbn [kept removed problems] in *.
    rewrite length_app in Hlen. cbn [length] in Hlen. cbn [length]. split; [lia|].
    intros Hr. apply Hdup, Forall_app_2; [done|]. by repeat constructor.
  - rewrite (step_nameless _ _ Hn) in *. cbn [kept removed problems] in *.
    rewrite errors_app, length_app, errors_nameless in Hlen. cbn [length].
    split; [lia|done].
Qed.

Lemma moves_foldl l st :
  moves (foldl (step data) st l)
  = moves st ++ mjoin ((λ a, (normalize data (key a) a).2) <$> survivors (seenNames st) l).
Proof.
  revert st. induction l as [|a l IH]; intros st; cbn [foldl survivors].
  { by rewrite app_nil_r. }
  rewrite IH.
  destruct (step_cases st a) as [(nm & Hn & Hs)|[(nm & Hn & Hs)|Hn]].
  - rewrite (step_survivor _ _ _ Hn Hs), Hn, bool_decide_false by done.
    cbn [moves seenNames]. rewrite fmap_cons. cbn [mjoin list_join].
    unfold key at 2. rewrite Hn. cbn [default from_option id].
    by rewrite app_assoc.
  - rewrite (step_duplicate _ _ _ Hn Hs), Hn, bool_decide_true by done. done.
  - rewrite (step_nameless _ _ Hn), Hn. done.
Qed.

(** The warnings of a record that reaches step 2 are in the final list. *)
Lemma problems_foldl l st a p :
  a ∈ survivors (seenNames st) l → p ∈ (normalize data (key a) a).1.2 →
  p ∈ problems (foldl (step data) st l).
Proof.
  assert (∀ l st q, q ∈ problems st → q ∈ problems (foldl (step data) st l)) as Hmono.
  { clear. intros l. induction l as [|b l IH]; intros st q Hq; cbn [foldl]; [done|].
    apply IH.
    destruct (step_cases st b) as [(nm & Hn & Hs)|[(nm & Hn & Hs)|Hn]].
    - rewrite (step_survivor _ _ _ Hn Hs). cbn [problems]. apply elem_of_app. by left.
    - by rewrite (step_duplicate _ _ _ Hn Hs).
    - rewrite (step_nameless _ _ Hn). cbn [problems]. apply elem_of_app. by left. }
  revert st. induction l as [|b l IH]; intros st; cbn [foldl survivors].
  { by intros ?%elem_of_nil. }
  destruct (step_cases st b) as [(nm & Hn & Hs)|[(nm & Hn & Hs)|Hn]].
  - rewrite Hn, bool_decide_false by done.
    intros [->|Hin]%elem_of_cons Hp.
    + apply Hmono. rewrite (step_survivor _ _ _ Hn Hs). cbn [problems].
      apply elem_of_app. right. unfold key in Hp. by rewrite Hn in Hp.
    + apply IH; [|done]. by rewrite (step_survivor _ _ _ Hn Hs).
  - rewrite Hn, bool_decide_true by done. intros Hin Hp.
    apply IH; [|done]. by rewrite (step_duplicate _ _ _ Hn Hs).
  - rewrite Hn. intros Hin Hp. apply IH; [|done]. by rewrite (step_nameless _ _ Hn).
Qed.

End LoopFacts.

Lemma first_is_survivor l nm i a :
  list_find (λ b, name b = Some nm) l = Some (i, a) → nm ≠ ""%string →
  a ∈ survivors ∅ l.
Proof.
  intros Hf Hne. pose proof Hf as (Hl & Hn & _)%list_find_Some.
  apply list_elem_of_lookup_2 in Hl.
  destruct (survivors_cover ∅ l a nm Hl Hn Hne) as (k & Hk & Hkn); [set_solver|].
  destruct (survivors_first _ _ _ Hk) as (nm' & i' & Hnm' & Hf').
  rewrite Hkn in Hnm'. injection Hnm' as <-. rewrite Hf in Hf'. by injection Hf' as _ <-.
Qed.

Lemma survivor_key seen l a :
  a ∈ survivors seen l → name a = Some (key a) ∧ key a ≠ ""%string.
Proof.
  intros (nm & Hn & Hne & _)%survivors_fresh. unfold key.
  by rewrite Hn, truthy_of_Some.
Qed.

(** The move a record adds: none when its canonical path is its declared
    path. *)
Lemma normalize_move data a :
  (Lint.normalize data (key a) a).2
  = if bool_decide (canonical_file data a = declared_path a) then []
    else [Lint.Move (declared_path a) (canonical_file data a) (key a)].
Proof. reflexivity. Qed.

Lemma moves_process data :
  Lint.moves (Lint.process data)
  = mjoin ((λ a, (Lint.normalize data (key a) a).2) <$> survivors ∅ (Lint.agents_of data)).
Proof. unfold Lint.process. by rewrite moves_foldl. Qed.

(** X1. The summary accounts for every record of the input: each is kept,
    removed as a duplicate, or reported as an error for want of a name; so
    [total = kept + removed + errors], and every removal is a duplicate. *)
Theorem summary_accounts_for_every_record (data : document) :
  let s := Lint.summarize data in
  Lint.total s
  = Lint.n_kept s + Lint.n_removed s + length (errors (Lint.problems (Lint.process data)))
  ∧ Lint.duplicates_removed s = Lint.n_removed s
  ∧ length (errors (Lint.problems (Lint.process data)))
    = length (filter (λ a, truthy (name a) = None) (Lint.agents_of data)).
Proof.
  intros s. subst s. unfold Lint.summarize. cbn [Lint.total Lint.n_kept Lint.n_removed
    Lint.duplicates_removed].
  destruct (foldl_accounts data (Lint.agents_of data) Lint.init) as [Hlen Hdup].
  cbn zeta in *. fold (Lint.process data) in *.
  change (errors (Lint.problems Lint.init)) with (@nil Lint.problem) in Hlen.
  change (Lint.kept Lint.init) with (@nil agent) in Hlen.
  change (Lint.removed Lint.init) with (@nil Lint.removal) in Hlen.
  cbn [length] in Hlen. split; [lia|]. split.
  - f_equal. specialize (Hdup (Forall_nil_2 _)). revert Hdup.
    generalize (Lint.removed (Lint.process data)). intros rs.
    induction 1 as [|r rs Hr _ IH]; [done|].
    rewrite filter_cons_True by done. by rewrite IH.
  - assert (length (Lint.kept (Lint.process data)) + length (Lint.removed (Lint.process data))
            = length (filter (λ a, is_Some (truthy (name a))) (Lint.agents_of data))) as Hnamed.
    { unfold Lint.process.
      assert (∀ l st, length (Lint.kept (foldl (Lint.step data) st l))
                      + length (Lint.removed (foldl (Lint.step data) st l))
                      = length (Lint.kept st) + length (Lint.removed st)
                        + length (filter (λ a, is_Some (truthy (name a))) l)) as H.
      { induction l as [|a l IH]; intros st; cbn [foldl]; [cbn [filter list_filter length]; lia|].
        rewrite IH.
        destruct (step_cases st a) as [(nm & Hn & Hs)|[(nm & Hn & Hs)|Hn]].
        - rewrite (step_survivor _ _ _ _ Hn Hs). cbn [Lint.kept Lint.removed].
          rewrite filter_cons_True by (rewrite Hn; eauto). rewrite length_app. cbn [length]. lia.
        - rewrite (step_duplicate _ _ _ _ Hn Hs). cbn [Lint.kept Lint.removed].
          rewrite filter_cons_True by (rewrite Hn; eauto). rewrite length_app. cbn [length]. lia.
        - rewrite (step_nameless _ _ _ Hn). cbn [Lint.kept Lint.removed].
          rewrite filter_cons_False by (rewrite Hn; by intros [??]). lia. }
      rewrite H. reflexivity. }
    assert (∀ l : list agent,
              length l = length (filter (λ a, is_Some (truthy (name a))) l)
                         + length (filter (λ a, truthy (name a) = None) l)) as Hsplit.
    { induction l as [|a l IH]; [done|].
      destruct (truthy (name a)) eqn:Hn.
      - rewrite filter_cons_True by (rewrite Hn; eauto).
        rewrite (filter_cons_False (λ a, truthy (name a) = None)) by (by rewrite Hn).
        simpl. lia.
      - rewrite filter_cons_False by (rewrite Hn; by intros [??]).
        rewrite (filter_cons_True (λ a, truthy (name a) = None)) by done.
        simpl. lia. }
    specialize (Hsplit (Lint.agents_of data)). lia.
Qed.

(** ** The move plan *)

Lemma mjoin_elem {A} (x : A) (ls : list (list A)) : x ∈ mjoin ls ↔ ∃ l, l ∈ ls ∧ x ∈ l.
Proof.
  induction ls as [|l ls IH]; cbn [mjoin list_join].
  - split; [by intros ?%elem_of_nil|]. by intros (l & ?%elem_of_nil & _).
  - rewrite elem_of_app, IH. split.
    + intros [?|(l' & ? & ?)]; [exists l; split; [left|done]|exists l'; split; [by right|done]].
    + intros (l' & [->|?]%elem_of_cons & ?); [by left|right; eauto].
Qed.

Lemma planned_owners_sublist data (s : list agent) :
  sublist (Lint.owner <$> mjoin ((λ a, (Lint.normalize data (key a) a).2) <$> s)) (key <$> s).
Proof.
  induction s as [|a s IH]; [done|].
  rewrite !fmap_cons. cbn [mjoin list_join]. rewrite fmap_app, normalize_move.
  case_bool_decide; cbn [fmap list_fmap app Lint.owner]; by constructor.
Qed.

Lemma survivors_keys_NoDup seen l : NoDup (key <$> survivors seen l).
Proof.
  apply (NoDup_fmap_1 Some). rewrite <- list_fmap_compose.
  erewrite list_fmap_ext; [apply (survivors_NoDup seen l)|].
  intros i a Ha. apply list_elem_of_lookup_2, survivor_key in Ha as [-> _]. done.
Qed.

(** X2. The move list holds exactly the records whose canonical path
    differs from their declared path: a move is planned if and only if its
    owner is the non-empty key of a record of the input, the first one with
    that key, it leads from the record's declared path to its canonical
    path, and the two differ.  No key owns two moves. *)
Theorem moves_are_the_changed_paths (data : document) :
  (∀ m, m ∈ Lint.moves (Lint.process data) ↔
     ∃ i a, list_find (λ b, name b = Some (Lint.owner m)) (Lint.agents_of data) = Some (i, a)
       ∧ Lint.owner m ≠ ""%string
       ∧ Lint.from m = declared_path a
       ∧ Lint.to m = canonical_file data a
       ∧ Lint.from m ≠ Lint.to m)
  ∧ NoDup (Lint.owner <$> Lint.moves (Lint.process data)).
Proof.
  rewrite moves_process. split.
  - intros m. rewrite mjoin_elem. split.
    + intros (mv & (a & -> & Ha)%list_elem_of_fmap & Hm).
      rewrite normalize_move in Hm. case_bool_decide as Hsame; [by apply elem_of_nil in Hm|].
      apply list_elem_of_singleton in Hm as ->. cbn [Lint.owner Lint.from Lint.to].
      destruct (survivor_key _ _ _ Ha) as [Hname Hne].
      destruct (survivors_first _ _ _ Ha) as (nm & i & Hnm & Hf).
      rewrite Hname in Hnm. injection Hnm as <-.
      exists i, a. repeat split; [done..|]. congruence.
    + intros (i & a & Hf & Hne & Hfrom & Hto & Hdiff).
      pose proof (first_is_survivor _ _ _ _ Hf Hne) as Ha.
      destruct (survivor_key _ _ _ Ha) as [Hname _].
      pose proof Hf as (_ & Hn & _)%list_find_Some.
      rewrite Hname in Hn. injection Hn as Hkey.
      exists ((Lint.normalize data (key a) a).2). split.
      * apply list_elem_of_fmap. eauto.
      * rewrite normalize_move, bool_decide_false by congruence.
        apply list_elem_of_singleton. destruct m as [f t o]. cbn in *. congruence.
  - eapply sublist_NoDup; [apply survivors_keys_NoDup|apply planned_owners_sublist].
Qed.

Lemma replace_l_same pat l : Js.replace_l pat pat l = l.
Proof.
  induction l as [|c l IH]; rewrite replace_l_eq;
    destruct (Js.starts_l pat _) eqn:Hs; try (by symmetry; apply starts_l_split).
  - done.
  - by rewrite IH.
Qed.

Lemma replace_same s pat : Js.replace s pat pat = s.
Proof. unfold Js.replace. by rewrite replace_l_same, str_chars. Qed.

(** A declared path under the required directory whose basename is a fixed
    point of [toKebab] is its own canonical path. *)
Lemma canonical_path_fixed data cat p :
  toKebab (Path.basename p) = Path.basename p →
  Js.startsWith p (required_dir data cat +:+ "/") = true →
  canonical_path data cat p = p.
Proof.
  intros Hk Hs. unfold canonical_path. rewrite Hk, replace_same.
  unfold required_dir in Hs. case_bool_decide.
  - by rewrite Hs.
  - unfold Lint.ensurePrefixedByCategory. by rewrite Hs.
Qed.

Lemma already_canonical_no_move data a :
  already_canonical data a → (Lint.normalize data (key a) a).2 = [].
Proof.
  intros (p & cat & Hsrc & Hne & Htrim & Hk & Hcat & Hs).
  rewrite normalize_move.
  assert (declared_path a = p) as Hdecl.
  { unfold declared_path, or_else. rewrite Hsrc, truthy_of_Some by done.
    cbn [default from_option id]. rewrite Htrim. by rewrite bool_decide_false. }
  destruct (canonical_source_file data a) as (cat' & Hcat' & Hfile).
  rewrite Hcat in Hcat'. injection Hcat' as <-.
  unfold canonical_file. rewrite Hfile, Hdecl. cbn [default from_option id].
  rewrite canonical_path_fixed by done. by rewrite bool_decide_true.
Qed.

(** X3. A registry whose records are all where the loop would put them
    plans no move: when every declared path is trimmed, lies under the
    directory of the record's resolved category and ends in a basename that
    [toKebab] leaves unchanged, the move list is empty and every accepted
    record keeps its declared path. *)
Theorem settled_registry_plans_no_move (data : document) :
  (∀ a, a ∈ Lint.agents_of data → already_canonical data a) →
  Lint.moves (Lint.process data) = []
  ∧ ∀ k, k ∈ Lint.kept (Lint.process data) →
      ∃ a, a ∈ Lint.agents_of data ∧ name k = name a ∧ source_file k = source_file a.
Proof.
  intros Hall. split.
  - rewrite moves_process.
    assert (∀ s : list agent, (∀ a, a ∈ s → already_canonical data a) →
              mjoin ((λ a, (Lint.normalize data (key a) a).2) <$> s) = []) as H.
    { induction s as [|a s IH]; intros Hs; [done|].
      rewrite fmap_cons. cbn [mjoin list_join].
      rewrite already_canonical_no_move by (apply Hs; left).
      apply IH. intros b Hb. apply Hs. by right. }
    apply H. intros a Ha. apply Hall. eapply elem_of_sublist; [done|apply survivors_sublist].
  - rewrite kept_process. intros k (a & -> & Ha)%list_elem_of_fmap.
    assert (a ∈ Lint.agents_of data) as Hin
      by (eapply elem_of_sublist; [done|apply survivors_sublist]).
    exists a. split; [done|]. split; [done|].
    pose proof (already_canonical_no_move data a (Hall a Hin)) as Hmv.
    rewrite normalize_move in Hmv. case_bool_decide as Hsame; [|done].
    destruct (Hall a Hin) as (p & cat & Hsrc & Hne & Htrim & _).
    assert (declared_path a = p) as Hdecl.
    { unfold declared_path, or_else. rewrite Hsrc, truthy_of_Some by done.
      cbn [default from_option id]. rewrite Htrim. by rewrite bool_decide_false. }
    destruct (canonical_source_file data a) as (cat' & _ & Hfile).
    unfold canonical_file in Hsame. rewrite Hfile in Hsame. cbn [default from_option id] in Hsame.
    rewrite Hfile, Hsame, Hdecl. done.
Qed.

(** The registry whose one record lies at [01-core-development/foo.md]. *)
Lemma settled_registry_plans_no_move_witness :
  (∀ a, a ∈ Lint.agents_of Cases.doc_settled → already_canonical Cases.doc_settled a)
  ∧ Lint.moves (Lint.process Cases.doc_settled) = [].
Proof.
  assert (∀ a, a ∈ Lint.agents_of Cases.doc_settled → already_canonical Cases.doc_settled a) as H.
  { intros a Ha. apply list_elem_of_singleton in Ha as ->.
    exists "01-core-development/foo.md"%string, Demo.core.
    repeat split; try reflexivity. discriminate. }
  split; [exact H|]. exact (proj1 (settled_registry_plans_no_move Cases.doc_settled H)).
Defined.

(** ** Categories and synthesised paths *)

Lemma aliasMap_nonempty raw cat : Lint.aliasMap raw = Some cat → cat ≠ ""%string.
Proof.
  unfold Lint.aliasMap. repeat case_bool_decide; intros [= <-]; discriminate.
Qed.

Lemma normalize_category data nm a :
  ∃ cat, category (normalize_out data nm a) = Some cat ∧ cat ≠ ""%string
    ∧ (cat ∈ Lint.declaredKeys data ∨ cat = Lint.rootCategoryKey
       ∨ cat = "01-core-development"%string
       ∨ ∃ raw, category a = Some raw ∧ Lint.aliasMap raw = Some cat).
Proof.
  unfold normalize_out, Lint.normalize. cbn [fst category].
  eexists. split; [reflexivity|].
  set (cat1 := default _ (Lint.aliasMap _)).
  destruct (decide (cat1 = ""%string)) as [He|He].
  { rewrite (bool_decide_true (cat1 = ""%string)) by done. cbn [negb andb].
    rewrite He. rewrite bool_decide_true by done. split; [discriminate|auto]. }
  rewrite (bool_decide_false (cat1 = ""%string)) by done. cbn [negb andb].
  destruct (decide (cat1 ∈ Lint.declaredKeys data)) as [Hd|Hd].
  { rewrite (bool_decide_true (cat1 ∈ _)) by done. cbn [negb andb].
    rewrite bool_decide_false by done. split; [done|auto]. }
  rewrite (bool_decide_false (cat1 ∈ _)) by done. cbn [negb andb].
  destruct (decide (cat1 = Lint.rootCategoryKey)) as [Hr|Hr].
  { rewrite (bool_decide_true (cat1 = Lint.rootCategoryKey)) by done. cbn [negb].
    rewrite bool_decide_false by done. split; [done|auto]. }
  rewrite (bool_decide_false (cat1 = Lint.rootCategoryKey)) by done. cbn [negb].
  destruct (category a ≫= Lint.aliasMap) as [h|] eqn:Hh; cbn [default from_option id].
  - apply bind_Some in Hh as (raw & Hraw & Halias).
    pose proof (aliasMap_nonempty _ _ Halias).
    rewrite bool_decide_false by done. split; [done|]. right; right; right. eauto.
  - rewrite bool_decide_false by discriminate. split; [discriminate|auto].
Qed.

(** X4. Every accepted record has a category, and it is never empty: it is
    a declared key, the root key, the default [01-core-development], or the
    target the alias table gives for a category.  (For a registry none of
    whose categories is spelled like a member inherited from
    [Object.prototype], so that every lookup in the alias table is one in
    the table itself.) *)
Theorem accepted_category_is_resolved (data : document) (k : agent) :
  Forall own_category (Lint.agents_of data) →
  k ∈ Lint.kept (Lint.process data) →
  ∃ cat, category k = Some cat ∧ cat ≠ ""%string
    ∧ (cat ∈ Lint.declaredKeys data ∨ cat = Lint.rootCategoryKey
       ∨ cat = "01-core-development"%string
       ∨ ∃ raw, Lint.aliasMap raw = Some cat).
Proof.
  intros _. rewrite kept_process. intros (a & -> & _)%list_elem_of_fmap.
  destruct (normalize_category data (key a) a) as (cat & Hc & Hne & Hcases).
  exists cat. split; [done|]. split; [done|].
  destruct Hcases as [?|[?|[?|(raw & _ & ?)]]]; eauto.
Qed.

(** The record of scenario B, whose category [engineering] is an alias. *)
Lemma accepted_category_is_resolved_witness :
  let k := Agent (Some "foo") (Some Demo.core) (Some "01-core-development/foo.md") None [] in
  Forall own_category (Lint.agents_of Demo.doc_foo)
  ∧ k ∈ Lint.kept (Lint.process Demo.doc_foo)
  ∧ ∃ cat, category k = Some cat ∧ cat ≠ ""%string
      ∧ (cat ∈ Lint.declaredKeys Demo.doc_foo ∨ cat = Lint.rootCategoryKey
         ∨ cat = "01-core-development"%string
         ∨ ∃ raw, Lint.aliasMap raw = Some cat).
Proof.
  intros k.
  assert (Forall own_category (Lint.agents_of Demo.doc_foo)) as Hown.
  { repeat constructor. unfold own_category. apply (bool_decide_unpack _).
    vm_compute. exact I. }
  assert (k ∈ Lint.kept (Lint.process Demo.doc_foo)) as H by (vm_compute; left).
  split; [exact Hown|]. split; [exact H|].
  exact (accepted_category_is_resolved Demo.doc_foo k Hown H).
Defined.

Lemma startsWith_nonempty p dir : Js.startsWith p (dir +:+ "/") = true → p ≠ ""%string.
Proof.
  intros Hs ->. unfold Js.startsWith in Hs. rewrite chars_app in Hs.
  destruct (Js.chars dir); discriminate.
Qed.

(** X5. A record without a declared path is not accepted silently: when
    the [source_file] of the first record with a key is absent or blank,
    the path [toKebab key + .md] is synthesised for it, a warning that
    names the synthesised path is reported, and the accepted record has a
    non-empty canonical path, to which a move from the synthesised path is
    planned unless the two are equal. *)
Theorem missing_path_is_synthesised (data : document) (i : nat) (a : agent) (nm : string) :
  list_find (λ b, name b = Some nm) (Lint.agents_of data) = Some (i, a) →
  nm ≠ ""%string →
  Js.trim (or_else (source_file a) "") = ""%string →
  let guessed := (toKebab nm +:+ ".md")%string in
  Lint.Problem "warn" ("Missing source_file; synthesized '" +:+ guessed +:+ "'") (Some nm) None
    ∈ Lint.problems (Lint.process data)
  ∧ ∃ k p, k ∈ Lint.kept (Lint.process data) ∧ name k = Some nm
      ∧ source_file k = Some p ∧ p ≠ ""%string
      ∧ (p = guessed ∨ Lint.Move guessed p nm ∈ Lint.moves (Lint.process data)).
Proof.
  intros Hf Hne Hblank guessed.
  pose proof (first_is_survivor _ _ _ _ Hf Hne) as Ha.
  pose proof Hf as (_ & Hn & _)%list_find_Some.
  assert (key a = nm) as Hkey by (unfold key; by rewrite Hn, truthy_of_Some).
  assert (declared_path a = guessed) as Hdecl.
  { unfold declared_path. rewrite Hblank, Hkey. by rewrite bool_decide_true. }
  split.
  - unfold Lint.process. apply (problems_foldl data _ _ a); [exact Ha|].
    rewrite Hkey. unfold Lint.normalize. cbn [fst snd].
    apply elem_of_app. right. apply elem_of_app. left.
    rewrite Hblank. rewrite bool_decide_true by done. by left.
  - destruct (normalize_prefixed data (key a) a) as (cat & p & _ & Hp & Hs).
    exists (canonical data a), p. split.
    { rewrite kept_process. apply list_elem_of_fmap. eauto. }
    split; [done|]. split; [exact Hp|]. split; [by eapply startsWith_nonempty|].
    destruct (decide (p = guessed)) as [|Hdiff]; [by left|right].
    rewrite moves_process. apply mjoin_elem.
    exists ((Lint.normalize data (key a) a).2). split.
    { apply list_elem_of_fmap. eauto. }
    rewrite normalize_move. unfold canonical_file, canonical.
    rewrite Hp, Hdecl, Hkey. cbn [default from_option id].
    rewrite bool_decide_false by done. by left.
Qed.

(** The record named [Code Reviewer], with no [source_file]. *)
Lemma missing_path_is_synthesised_witness :
  let a := Agent (Some "Code Reviewer") (Some Demo.core) None None [] in
  list_find (λ b, name b = Some "Code Reviewer"%string) (Lint.agents_of Cases.doc_pathless)
    = Some (0, a)
  ∧ Lint.Problem "warn" "Missing source_file; synthesized 'code-reviewer.md'"
      (Some "Code Reviewer"%string) None
    ∈ Lint.problems (Lint.process Cases.doc_pathless)
  ∧ ∃ k p, k ∈ Lint.kept (Lint.process Cases.doc_pathless)
      ∧ name k = Some "Code Reviewer"%string
      ∧ source_file k = Some p ∧ p ≠ ""%string
      ∧ (p = "code-reviewer.md"%string
         ∨ Lint.Move "code-reviewer.md" p "Code Reviewer"
           ∈ Lint.moves (Lint.process Cases.doc_pathless)).
Proof.
  intros a.
  assert (list_find (λ b, name b = Some "Code Reviewer"%string)
            (Lint.agents_of Cases.doc_pathless) = Some (0, a)) as H1 by reflexivity.
  split; [exact H1|].
  refine (missing_path_is_synthesised Cases.doc_pathless 0 a "Code Reviewer" H1 _ _).
  - discriminate.
  - reflexivity.
Defined.

(** ** Normal forms of [toKebab] *)

(** X6. [toKebab] returns kebab form for every input: only the characters
    [a-z0-9._/-], so no capital and no whitespace, and no two hyphens in a
    row; and the strings it leaves unchanged are exactly those in kebab
    form. *)
Theorem toKebab_normal_forms (s : string) :
  kebab_form (Js.chars (toKebab s))
  ∧ Forall (λ c, Js.is_upper c = false ∧ Js.is_ws c = false ∧ Js.allowed c = true)
      (Js.chars (toKebab s))
  ∧ (toKebab s = s ↔ kebab_form (Js.chars s)).
Proof.
  rewrite toKebab_chars. pose proof (toKebab_l_form (Js.chars s)) as Hform.
  split; [done|]. split.
  - destruct Hform as [Hc _]. eapply Forall_impl; [exact Hc|]. intros c Hc'. simpl.
    auto using kebab_char_not_upper, kebab_char_not_ws, kebab_char_allowed.
  - split.
    + intros Heq. rewrite <- Heq, toKebab_chars. done.
    + intros Hk. unfold toKebab. by rewrite toKebab_l_fixed, str_chars.
Qed.

(** ** Paths: a path is its directory and its basename *)

Section PathFacts.
Import Js Path.

Lemma is_slash_eq c : is_slash c = true → c = "/"%char.
Proof. each_char c. Qed.

Lemma is_slash_false_neq c : is_slash c = false → "/"%char ≠ c.
Proof. intros Hc <-. discriminate. Qed.

Lemma drop_slashes_split l :
  ∃ tl, l = tl ++ drop_slashes l ∧ Forall (λ c, is_slash c = true) tl.
Proof.
  induction l as [|c l (tl & Hl & Htl)]; [by exists []|]. simpl.
  destruct (is_slash c) eqn:Hc.
  - exists (c :: tl). split; [by rewrite Hl at 1|by constructor].
  - by exists [].
Qed.

Lemma segment_split l : l = take_segment l ++ drop_segment l.
Proof.
  induction l as [|c l IH]; [done|]. simpl. destruct (is_slash c); [done|].
  simpl. by rewrite <- IH.
Qed.

Lemma drop_segment_head l c r : drop_segment l = c :: r → is_slash c = true.
Proof.
  induction l as [|c' l IH]; [done|]. simpl.
  destruct (is_slash c') eqn:Hc; [|done]. by intros [= <- _].
Qed.

Lemma segments_go_free cur x y :
  Forall (λ c, is_slash c = false) x →
  segments_go cur (x ++ y) = segments_go (rev x ++ cur) y.
Proof.
  intros Hx. revert cur. induction Hx as [|c x Hc _ IH]; intros cur; [done|].
  simpl. rewrite Hc, IH. by rewrite <- app_assoc.
Qed.

Lemma segments_go_slashes cur tl :
  Forall (λ c, is_slash c = true) tl → segments_go cur tl = emit cur.
Proof.
  intros Htl. revert cur. induction Htl as [|c tl Hc _ IH]; intros cur; [done|].
  simpl. rewrite Hc, IH. simpl. apply app_nil_r.
Qed.

Lemma segments_go_cut cur x c y :
  is_slash c = true →
  segments_go cur (x ++ c :: y) = segments_go cur x ++ segments_go [] y.
Proof.
  intros Hc. revert cur. induction x as [|d x IH]; intros cur; simpl.
  - by rewrite Hc.
  - destruct (is_slash d); [|done]. by rewrite IH, app_assoc.
Qed.

Lemma emit_name b :
  b ≠ [] → b ≠ ["."%char] → emit (rev b) = [str b].
Proof.
  intros Hb Hdot. unfold emit. destruct (rev b) as [|c r] eqn:Hr.
  { apply (f_equal (@rev _)) in Hr. by rewrite rev_involutive in Hr. }
  rewrite bool_decide_false.
  - by rewrite <- Hr, rev_involutive.
  - intros Heq. apply Hdot. rewrite <- (rev_involutive b), Hr, Heq. done.
Qed.

(** The segments of a path are those of its directory, then its basename;
    and the directory is absolute when the path is. *)
Lemma dirname_segments l :
  basename_l l ≠ [] → basename_l l ≠ ["."%char] →
  segments_go [] l = segments_go [] (dirname_l l) ++ [str (basename_l l)]
  ∧ starts_l ["/"%char] (dirname_l l) = starts_l ["/"%char] l.
Proof.
  intros Hb Hdot.
  destruct (drop_slashes_split (rev l)) as (tl & Hrev & Htl).
  pose proof (segment_split (drop_slashes (rev l))) as Hseg.
  pose proof (basename_l_free l) as Hfree.
  unfold basename_l in *.
  set (seg := take_segment (drop_slashes (rev l))) in *.
  assert (l = rev (drop_segment (drop_slashes (rev l))) ++ rev seg ++ rev tl) as Hl.
  { rewrite <- (rev_involutive l) at 1. rewrite Hrev, Hseg at 1.
    by rewrite !rev_app_distr, app_assoc. }
  assert (segments_go [] (rev seg ++ rev tl) = [str (rev seg)]) as Hlast.
  { rewrite segments_go_free by done. rewrite app_nil_r.
    rewrite segments_go_slashes by (by apply Forall_rev). by apply emit_name. }
  unfold dirname_l.
  destruct l as [|c0 l0] eqn:El; [done|]. rewrite <- El in *.
  destruct (drop_segment (drop_slashes (rev l))) as [|c r] eqn:Hrest.
  - (* no slash before the basename *)
    simpl in Hl.
    assert (is_slash c0 = false) as Hc0.
    { destruct (rev seg) as [|b0 bs] eqn:Hb0; [done|].
      rewrite El in Hl. simpl in Hl. injection Hl as -> _.
      by apply Forall_cons in Hfree as [? _]. }
    rewrite Hc0. split.
    + rewrite Hl at 1. by rewrite Hlast.
    + rewrite El. simpl. apply is_slash_false_neq in Hc0. by rewrite bool_decide_false.
  - pose proof (drop_segment_head _ _ _ Hrest) as Hc.
    assert (l = rev r ++ c :: (rev seg ++ rev tl)) as Hl'.
    { rewrite Hl at 1. simpl. by rewrite <- app_assoc. }
    assert (segments_go [] l = segments_go [] (rev r) ++ [str (rev seg)]) as Hsegs.
    { rewrite Hl' at 1. by rewrite segments_go_cut, Hlast. }
    destruct r as [|x [|y r']].
    + (* the path is [/name] *)
      split; [by rewrite Hsegs|].
      rewrite Hl'. simpl. apply is_slash_eq in Hc as ->. done.
    + assert (c0 = x) as ->.
      { rewrite El in Hl'. simpl in Hl'. by injection Hl' as -> _. }
      destruct (is_slash x) eqn:Hx.
      * split.
        -- rewrite Hsegs. simpl. by rewrite Hx.
        -- rewrite El. simpl. by apply is_slash_eq in Hx as ->.
      * split; [by rewrite Hsegs|].
        rewrite El. simpl. done.
    + split; [by rewrite Hsegs|].
      transitivity (starts_l ["/"%char] (rev (x :: y :: r') ++ c :: (rev seg ++ rev tl))).
      * simpl. rewrite <- !app_assoc. by destruct (rev r').
      * by rewrite <- Hl'.
Qed.

End PathFacts.

Lemma str_nil_inv l : Js.str l = ""%string → l = [].
Proof. intros H. by apply (str_inj l []). Qed.

Lemma basename_proper p :
  Path.basename p ≠ ""%string → Path.basename p ≠ "."%string →
  Path.basename_l (Js.chars p) ≠ [] ∧ Path.basename_l (Js.chars p) ≠ ["."%char].
Proof.
  unfold Path.basename. intros H1 H2.
  split; intros Heq; rewrite Heq in *; [by apply H1|by apply H2].
Qed.

(** A path with a proper basename resolves to the directory [dirname]
    resolves to, followed by the basename. *)
Lemma resolve_dirname cwd p :
  Path.basename p ≠ ""%string → Path.basename p ≠ "."%string →
  Path.resolve cwd p = Path.resolve cwd (Path.dirname p) ++ [Path.basename p].
Proof.
  intros H1 H2. destruct (basename_proper p H1 H2) as [Hb Hdot].
  destruct (dirname_segments (Js.chars p) Hb Hdot) as [Hsegs Habs].
  unfold Path.resolve, Path.isAbsolute, Js.startsWith, Path.segments, Path.dirname.
  rewrite chars_str. change (Js.chars "/") with ["/"%char].
  rewrite Habs, Hsegs. unfold Path.basename.
  destruct (Js.starts_l ["/"%char] (Js.chars p)); [reflexivity|].
  by rewrite app_assoc.
Qed.

Lemma resolve_parent cwd p :
  Path.basename p ≠ ""%string → Path.basename p ≠ "."%string →
  Fs.parent (Path.resolve cwd p) = Path.resolve cwd (Path.dirname p).
Proof.
  intros H1 H2. rewrite (resolve_dirname cwd p H1 H2). unfold Fs.parent.
  apply removelast_last.
Qed.

Lemma prefixes_length q a : a ∈ Fs.prefixes q → length a ≤ length q.
Proof.
  revert a. induction q as [|n q IH]; intros a; simpl.
  - intros ->%list_elem_of_singleton. done.
  - intros [->|(b & -> & Hb)%list_elem_of_fmap]%elem_of_cons; simpl; [lia|].
    apply IH in Hb. lia.
Qed.

(** Once the directory of [p] has been made, the parent of [p] is a
    directory, and [p] itself has not become one. *)
Lemma mkdir_for cwd t p t1 :
  Path.basename p ≠ ""%string → Path.basename p ≠ "."%string →
  Fs.mkdirSync cwd t (Path.dirname p) = inr t1 →
  Fs.files t1 = Fs.files t
  ∧ Fs.is_dir t1 (Fs.parent (Path.resolve cwd p)) = true
  ∧ (Fs.is_dir t (Path.resolve cwd p) = false → Fs.is_dir t1 (Path.resolve cwd p) = false).
Proof.
  intros H1 H2 Hmk. unfold Fs.mkdirSync in Hmk.
  pose proof (mkdir_p_made _ _ _ Hmk) as (Hfiles & Hmade & _).
  split; [done|]. split.
  - rewrite resolve_parent by done. apply Hmade, prefixes_self.
  - unfold Fs.mkdir_p in Hmk. case_bool_decide; [done|]. injection Hmk as <-.
    unfold Fs.is_dir. simpl. intros Hnd. apply bool_decide_eq_false in Hnd.
    apply bool_decide_eq_false. intros [Hin|Hin]%elem_of_union; [done|].
    apply elem_of_list_to_set, prefixes_length in Hin.
    rewrite (resolve_dirname cwd p H1 H2), length_app in Hin. simpl in Hin. lia.
Qed.

(** A rename of a regular file to a place that is no directory and whose
    parent is one goes through. *)
Lemma rename_file_ok t src dst c :
  Fs.files t !! src = Some c → src ≠ dst →
  Fs.is_dir t dst = false → Fs.is_dir t (Fs.parent dst) = true →
  Fs.rename t src dst = inr (Fs.Tree (<[dst := c]> (delete src (Fs.files t))) (Fs.dirs t)).
Proof.
  intros Hc Hne Hnd Hpd. unfold Fs.rename.
  by rewrite Hc, bool_decide_false, Hnd, Hpd.
Qed.

(** ** Plain path strings *)

Example plain_path_ex :
  plain_path "p/x.md" = true ∧ plain_path "/repo/x.md" = true
  ∧ plain_path "agents/x.md/" = false ∧ plain_path "01-core-development/" = false
  ∧ plain_path "../new/../x.md" = false ∧ plain_path "./x.md" = false
  ∧ plain_path "" = false.
Proof. repeat split; reflexivity. Qed.

Lemma take_segment_cut x a y :
  Path.is_slash a = true → Path.take_segment (x ++ a :: y) = Path.take_segment x.
Proof.
  intros Ha. induction x as [|c x IH]; simpl; [by rewrite Ha|].
  destruct (Path.is_slash c); [done|]. by rewrite IH.
Qed.

(** The last piece of a path string is what follows its last slash. *)
Lemma last_piece cur l :
  Forall (λ c, Path.is_slash c = false) cur →
  last (pieces_go cur l) = Some (Js.str (rev (Path.take_segment (rev l ++ cur)))).
Proof.
  revert cur. induction l as [|a l IH]; intros cur Hcur.
  - cbn [pieces_go rev app last]. pose proof (take_segment_app cur [] Hcur) as Hid.
    rewrite app_nil_r in Hid. cbn [Path.take_segment] in Hid. rewrite app_nil_r in Hid.
    by rewrite Hid.
  - cbn [pieces_go rev]. rewrite <- app_assoc. cbn [app].
    destruct (Path.is_slash a) eqn:Ha.
    + rewrite last_cons, (IH []) by done. rewrite app_nil_r.
      by rewrite take_segment_cut.
    + apply IH. by constructor.
Qed.

Lemma plain_path_nonempty p : plain_path p = true → p ≠ ""%string.
Proof. intros H ->. discriminate. Qed.

(** A plain path string ends in a proper name, which is its basename. *)
Lemma plain_path_basename p :
  plain_path p = true →
  Path.basename p ≠ ""%string ∧ Path.basename p ≠ "."%string
  ∧ Path.basename p ≠ ".."%string.
Proof.
  unfold plain_path, pieces. intros [Hall Hlast]%andb_true_iff.
  apply negb_true_iff, bool_decide_eq_false in Hlast.
  pose proof (last_piece [] (Js.chars p) (Forall_nil_2 _)) as Hp. rewrite app_nil_r in Hp.
  assert (Path.basename p = Js.str (rev (Path.take_segment (rev (Js.chars p))))) as Hb.
  { unfold Path.basename, Path.basename_l. do 3 f_equal.
    destruct (rev (Js.chars p)) as [|c r]; [done|]. simpl.
    destruct (Path.is_slash c) eqn:Hc; [|done].
    exfalso. apply Hlast. rewrite Hp. simpl. by rewrite Hc. }
  rewrite Hb. set (b := Js.str _) in *.
  assert (b ∈ pieces_go [] (Js.chars p)) as Hin.
  { by apply last_Some_elem_of. }
  rewrite forallb_forall in Hall. apply list_elem_of_In, Hall in Hin.
  apply andb_true_iff in Hin as [H1%negb_true_iff%bool_decide_eq_false
                                  H2%negb_true_iff%bool_decide_eq_false].
  split; [|done]. intros Hnil. apply Hlast. by rewrite Hp, <- Hnil.
Qed.

(** ** The move loop: a source in place reaches its destination *)

(** X7. In the move loop, a move whose declared source is a regular file
    is never stopped by a missing directory: unless [mkdirSync] throws, the
    turn prints its [mv] line, the content of the source is at the
    destination and no longer at the source, and every other file is as it
    was.  (Source and destination are plain path strings, without [.] or
    [..] and without a slash at the end, that name two places, and the
    destination is no directory.) *)
Theorem move_of_present_source_goes_through
    (cwd : list string) (m : Lint.move) (ms : list Lint.move)
    (t : Fs.tree) (log : list string) (c : string) :
  plain_path (Lint.from m) = true → plain_path (Lint.to m) = true →
  Fs.files t !! Path.resolve cwd (Lint.from m) = Some c →
  Path.resolve cwd (Lint.from m) ≠ Path.resolve cwd (Lint.to m) →
  Fs.is_dir t (Path.resolve cwd (Lint.to m)) = false →
  match Fs.mkdirSync cwd t (Path.dirname (Lint.to m)) with
  | inl e => ∃ what, LintCli.apply_moves cwd (m :: ms) t log = (log, t, Uncaught what)
  | inr t1 =>
      ∃ t2,
        LintCli.apply_moves cwd (m :: ms) t log
        = LintCli.apply_moves cwd ms t2
            (log ++ ["mv " +:+ Lint.from m +:+ " -> " +:+ Lint.to m])
        ∧ Fs.files t2 !! Path.resolve cwd (Lint.to m) = Some c
        ∧ Fs.files t2 !! Path.resolve cwd (Lint.from m) = None
        ∧ ∀ q, q ≠ Path.resolve cwd (Lint.from m) → q ≠ Path.resolve cwd (Lint.to m) →
               Fs.files t2 !! q = Fs.files t !! q
  end.
Proof.
  intros Hfrom%plain_path_nonempty (Hb1 & Hb2 & _)%plain_path_basename Hc Hdiff Hnd.
  cbn [LintCli.apply_moves].
  destruct (Fs.mkdirSync cwd t (Path.dirname (Lint.to m))) as [e|t1] eqn:Hmk; [eauto|].
  destruct (mkdir_for _ _ _ _ Hb1 Hb2 Hmk) as (Hfiles & Hpd & Hnd1).
  specialize (Hnd1 Hnd). rewrite <- Hfiles in Hc.
  unfold LintCli.move_one.
  assert (Fs.existsSync cwd t1 (Lint.from m) = true) as ->.
  { unfold Fs.existsSync, Fs.present, Fs.is_file. rewrite bool_decide_false by done.
    rewrite Hc. by rewrite bool_decide_true. }
  unfold Fs.renameSync. rewrite (rename_file_ok _ _ _ _ Hc Hdiff Hnd1 Hpd).
  eexists. split; [reflexivity|]. cbn [Fs.files].
  split; [apply lookup_insert_eq|].
  split; [by rewrite lookup_insert_ne, lookup_delete_eq|].
  intros q Hq1 Hq2. by rewrite lookup_insert_ne, lookup_delete_ne, Hfiles.
Qed.

(** ** The rescue loop: a unique candidate in place is moved *)

(** X8. In the rescue loop, a wanted path that does not exist and has
    exactly one candidate in the index is always rescued when that
    candidate is a regular file of the tree: unless [mkdirSync] throws, the
    rename cannot fail; [moved] grows by one, the content of the candidate
    is at the wanted path and no longer at the candidate's, and every other
    file is as it was.  (The wanted path and the candidate are plain path
    strings, without [.] or [..] and without a slash at the end.) *)
Theorem unique_candidate_in_place_is_moved
    (cwd : list string) (index : gmap string (list string))
    (st : Rescue.state) (to candidate c : string) :
  plain_path to = true → plain_path candidate = true →
  Fs.existsSync cwd (Rescue.tree st) to = false →
  index !! Js.toLowerCase (Path.basename to) = Some [candidate] →
  Fs.files (Rescue.tree st) !! Path.resolve cwd candidate = Some c →
  match Fs.mkdirSync cwd (Rescue.tree st) (Path.dirname to) with
  | inl e => ∃ what, Rescue.step cwd index st to = inl what
  | inr t1 =>
      ∃ t2,
        Rescue.step cwd index st to
        = inr (Rescue.State t2 (S (Rescue.moved st)) (Rescue.missing st) (Rescue.skipped st)
                 (Rescue.log st ++ ["mv " +:+ candidate +:+ " -> " +:+ to]))
        ∧ Fs.files t2 !! Path.resolve cwd to = Some c
        ∧ Fs.files t2 !! Path.resolve cwd candidate = None
        ∧ ∀ q, q ≠ Path.resolve cwd candidate → q ≠ Path.resolve cwd to →
               Fs.files t2 !! q = Fs.files (Rescue.tree st) !! q
  end.
Proof.
  intros Hplain _ Hex Hidx Hc.
  pose proof (plain_path_nonempty _ Hplain) as Hto.
  apply plain_path_basename in Hplain as (Hb1 & Hb2 & _).
  destruct (existsSync_false _ _ _ Hto Hex) as [Hnone Hnd].
  assert (Path.resolve cwd candidate ≠ Path.resolve cwd to) as Hdiff.
  { intros Heq. rewrite Heq, Hnone in Hc. done. }
  unfold Rescue.step. rewrite Hex, Hidx. cbn [default from_option id].
  destruct (Fs.mkdirSync cwd (Rescue.tree st) (Path.dirname to)) as [e|t1] eqn:Hmk; [eauto|].
  destruct (mkdir_for _ _ _ _ Hb1 Hb2 Hmk) as (Hfiles & Hpd & Hnd1).
  specialize (Hnd1 Hnd). rewrite <- Hfiles in Hc.
  unfold Fs.renameSync. rewrite (rename_file_ok _ _ _ _ Hc Hdiff Hnd1 Hpd).
  eexists. split; [reflexivity|]. cbn [Fs.files].
  split; [apply lookup_insert_eq|].
  split; [by rewrite lookup_insert_ne, lookup_delete_eq|].
  intros q Hq1 Hq2. by rewrite lookup_insert_ne, lookup_delete_ne, Hfiles.
Qed.

(** ** The basename index *)

Lemma index_add_lookup idx p b :
  default [] (Rescue.index_add idx p !! b)
  = default [] (idx !! b)
    ++ (if bool_decide (Js.toLowerCase (Path.basename p) = b) then [p] else []).
Proof.
  unfold Rescue.index_add. case_bool_decide as Hb.
  - by rewrite Hb, lookup_insert_eq.
  - rewrite lookup_insert_ne by done. by rewrite app_nil_r.
Qed.

Lemma build_index_foldl all idx b :
  default [] (foldl Rescue.index_add idx all !! b)
  = default [] (idx !! b) ++ filter (λ p, Js.toLowerCase (Path.basename p) = b) all.
Proof.
  revert idx. induction all as [|p all IH]; intros idx; cbn [foldl].
  { by rewrite app_nil_r. }
  rewrite IH, index_add_lookup, <- app_assoc. f_equal.
  case_bool_decide.
  - by rewrite filter_cons_True.
  - by rewrite filter_cons_False.
Qed.

Lemma index_add_nonempty idx p :
  (∀ b l, idx !! b = Some l → l ≠ []) →
  ∀ b l, Rescue.index_add idx p !! b = Some l → l ≠ [].
Proof.
  intros Hidx b l. unfold Rescue.index_add.
  destruct (decide (Js.toLowerCase (Path.basename p) = b)) as [->|Hne].
  - rewrite lookup_insert_eq. intros [= <-]. by destruct (default [] _).
  - rewrite lookup_insert_ne by done. apply Hidx.
Qed.

Lemma build_index_nonempty all b l : Rescue.build_index all !! b = Some l → l ≠ [].
Proof.
  unfold Rescue.build_index.
  assert (∀ idx, (∀ b l, idx !! b = Some l → l ≠ []) →
            ∀ b l, foldl Rescue.index_add idx all !! b = Some l → l ≠ []) as H.
  { induction all as [|p ps IH]; intros idx Hidx; [done|].
    cbn [foldl]. apply IH. by apply index_add_nonempty. }
  apply H. intros b' l'. by rewrite lookup_empty.
Qed.

(** ** What [walk] lists *)

Lemma strip_prefix_Some pre p r : Fs.strip_prefix pre p = Some r ↔ p = pre ++ r.
Proof.
  revert p. induction pre as [|a pre IH]; intros p; simpl.
  - split; [by intros [= ->]|by intros ->].
  - destruct p as [|b p]; [done|]. case_bool_decide as Hab.
    + subst b. rewrite IH. split; [by intros ->|by intros [= ->]].
    + split; [done|]. intros [= -> _]. done.
Qed.

Lemma child_name_Some dir p n : Fs.child_name dir p = Some n ↔ p = dir ++ [n].
Proof.
  unfold Fs.child_name. destruct (Fs.strip_prefix dir p) as [r|] eqn:Hs.
  - apply strip_prefix_Some in Hs as ->. destruct r as [|m [|??]].
    + split; [done|]. by intros ?%app_inv_head.
    + split; [by intros [= ->]|]. by intros [= ->]%app_inv_head.
    + split; [done|]. by intros ?%app_inv_head.
  - split; [done|]. intros ->. by rewrite (proj2 (strip_prefix_Some dir _ [n]) eq_refl) in Hs.
Qed.

(** What [readdirSync] returns: the regular files and the directories
    directly under [dir]. *)
Lemma readdir_entry t dir (n : string) (isdir : bool) :
  (n, isdir) ∈ Fs.readdirSync t dir ↔
  if isdir then Fs.is_dir t (dir ++ [n]) = true else Fs.is_file t (dir ++ [n]) = true.
Proof.
  unfold Fs.readdirSync. rewrite elem_of_app, !list_elem_of_omap. split.
  - intros [(p & Hp & He)|(p & Hp & He)];
      destruct (Fs.child_name dir p) as [m|] eqn:Hc; simplify_eq/=;
      apply child_name_Some in Hc as ->.
    + apply bool_decide_eq_true. apply list_elem_of_fmap in Hp as ([k c] & -> & Hkc).
      apply elem_of_map_to_list in Hkc. simpl. eauto.
    + apply bool_decide_eq_true. by apply elem_of_elements.
  - destruct isdir; intros Hn; apply bool_decide_eq_true in Hn.
    + right. exists (dir ++ [n]). split; [by apply elem_of_elements|].
      by rewrite (proj2 (child_name_Some dir _ n) eq_refl).
    + left. exists (dir ++ [n]). destruct Hn as [c Hc]. split.
      * apply list_elem_of_fmap. exists (dir ++ [n], c). split; [done|].
        by apply elem_of_map_to_list.
      * by rewrite (proj2 (child_name_Some dir _ n) eq_refl).
Qed.

Lemma reaches_cons t dir n rest :
  reaches t dir (n :: rest) ↔
  (rest = [] ∧ Fs.is_file t (dir ++ [n]) = true)
  ∨ (Fs.is_dir t (dir ++ [n]) = true ∧ reaches t (dir ++ [n]) rest).
Proof.
  unfold reaches. split.
  - intros (_ & Hf & Hd). destruct rest as [|m rest]; [by left|right].
    split; [apply (Hd 1); simpl; lia|].
    split; [done|]. rewrite <- app_assoc. split; [done|].
    intros k Hk. rewrite <- app_assoc. apply (Hd (S k)). simpl in *. lia.
  - intros [[-> Hf]|(Hd & Hne & Hf & Hds)].
    + split; [done|]. split; [done|]. intros k Hk. simpl in Hk. lia.
    + split; [done|]. rewrite <- app_assoc in Hf. split; [done|].
      intros [|k] Hk; [lia|]. simpl. destruct k as [|k].
      * by rewrite take_0.
      * specialize (Hds (S k)). rewrite <- app_assoc in Hds. apply Hds. simpl in *. lia.
Qed.

Lemma walk_spec t n dir dirS p :
  p ∈ Rescue.walk n t dir dirS ↔
  ∃ rest, length rest ≤ n ∧ reaches t dir rest ∧ p = foldl Path.join dirS rest.
Proof.
  revert dir dirS. induction n as [|n IH]; intros dir dirS.
  { split; [by intros ?%elem_of_nil|].
    intros ([|??] & Hlen & (Hne & _) & _); [done|simpl in Hlen; lia]. }
  cbn [Rescue.walk]. rewrite mjoin_elem. split.
  - intros (l & ([nm isdir] & -> & He)%list_elem_of_fmap & Hp).
    apply readdir_entry in He. cbn [fst snd] in Hp. destruct isdir.
    + apply IH in Hp as (rest & Hlen & Hr & ->).
      exists (nm :: rest). split; [simpl; lia|]. split; [|done].
      apply reaches_cons. by right.
    + apply list_elem_of_singleton in Hp as ->.
      exists [nm]. split; [simpl; lia|]. split; [|done]. apply reaches_cons. by left.
  - intros ([|nm rest] & Hlen & Hr & ->); [by destruct Hr|].
    apply reaches_cons in Hr as [[-> Hf]|[Hd Hr]].
    + exists [Path.join dirS nm]. split; [|by left].
      apply list_elem_of_fmap. exists (nm, false). split; [done|]. by apply readdir_entry.
    + exists (Rescue.walk n t (dir ++ [nm]) (Path.join dirS nm)). split.
      * apply list_elem_of_fmap. exists (nm, true). split; [done|]. by apply readdir_entry.
      * apply IH. exists rest. split; [simpl in Hlen; lia|done].
Qed.

(** X10. [walk] lists exactly the regular files that can be reached from
    the root through directories, each by the path string the names from
    the root join to; a directory is never listed, nor a file under a name
    that is not a directory. *)
Theorem walk_lists_reachable_files (t : Fs.tree) (root : list string) (p : string) :
  p ∈ Rescue.walk (S (Fs.depth t)) t root (Path.absolute root) ↔
  ∃ rest, rest ≠ []
    ∧ Fs.is_file t (root ++ rest) = true
    ∧ (∀ k, 0 < k < length rest → Fs.is_dir t (root ++ take k rest) = true)
    ∧ p = foldl Path.join (Path.absolute root) rest.
Proof.
  rewrite walk_spec. split.
  - intros (rest & _ & (Hne & Hf & Hd) & ->). by exists rest.
  - intros (rest & Hne & Hf & Hd & ->). exists rest. split; [|done].
    apply bool_decide_eq_true in Hf as [c Hc].
    assert (root ++ rest ∈ (map_to_list (Fs.files t)).*1 ++ elements (Fs.dirs t)) as Hin.
    { apply elem_of_app. left. apply list_elem_of_fmap. exists (root ++ rest, c).
      split; [done|]. by apply elem_of_map_to_list. }
    apply depth_bound in Hin. rewrite length_app in Hin. lia.
Qed.

(** ** The index of the tree *)

Lemma walk_reaches t root p :
  p ∈ Rescue.walk (S (Fs.depth t)) t root (Path.absolute root) ↔
  ∃ rest, reaches t root rest ∧ p = foldl Path.join (Path.absolute root) rest.
Proof.
  rewrite walk_spec. split.
  - intros (rest & _ & Hr & ->). eauto.
  - intros (rest & Hr & ->). exists rest. split; [|done].
    destruct Hr as (_ & Hf & _). apply bool_decide_eq_true in Hf as [c Hc].
    assert (root ++ rest ∈ (map_to_list (Fs.files t)).*1 ++ elements (Fs.dirs t)) as Hin.
    { apply elem_of_app. left. apply list_elem_of_fmap. exists (root ++ rest, c).
      split; [done|]. by apply elem_of_map_to_list. }
    apply depth_bound in Hin. rewrite length_app in Hin. lia.
Qed.

(** X9. The index the rescue tool builds of the tree groups the walked
    paths that end in [.md] by their lower-cased basename.  The candidates
    it holds for a basename are, in the order they were walked, the walked
    paths whose last three characters are [.md] as written (a file
    [Reviewer.MD] is in no entry) and whose basename, compared without
    case, is that basename; they are the regular files reached from the
    root through directories that have such a path.  The index holds no
    entry without a path. *)
Theorem index_groups_paths_by_basename (root : list string) (t : Fs.tree) (b : string) :
  let walked := Rescue.walk (S (Fs.depth t)) t root (Path.absolute root) in
  default [] (Rescue.scan root t !! b)
  = filter (λ p, Js.toLowerCase (Path.basename p) = b)
      (filter (λ p, Js.endsWith p ".md" = true) walked)
  ∧ (∀ p, p ∈ default [] (Rescue.scan root t !! b) ↔
       Js.endsWith p ".md" = true ∧ Js.toLowerCase (Path.basename p) = b
       ∧ ∃ rest, reaches t root rest ∧ p = foldl Path.join (Path.absolute root) rest)
  ∧ (∀ l, Rescue.scan root t !! b = Some l → l ≠ []).
Proof.
  intros walked.
  assert (default [] (Rescue.scan root t !! b)
          = filter (λ p, Js.toLowerCase (Path.basename p) = b)
              (filter (λ p, Js.endsWith p ".md" = true) walked)) as Hlook.
  { unfold Rescue.scan, Rescue.build_index. by rewrite build_index_foldl, lookup_empty. }
  split; [done|]. split.
  - intros p. rewrite Hlook, !list_elem_of_filter. unfold walked. rewrite walk_reaches.
    tauto.
  - intros l. apply build_index_nonempty.
Qed.

(** Three files named [reviewer.md] up to case: the two whose suffix is
    [.md] as written are the candidates, the one that ends in [.MD] is
    not. *)
Example index_suffix_with_case :
  let candidates := default [] (Rescue.scan ["repo"%string] Cases.tree_capitals
                                  !! "reviewer.md"%string) in
  length candidates = 2
  ∧ "/repo/a/reviewer.md"%string ∈ candidates
  ∧ "/repo/c/REVIEWER.md"%string ∈ candidates
  ∧ "/repo/b/Reviewer.MD"%string ∉ candidates.
Proof.
  intros candidates.
  assert (candidates = ["/repo/a/reviewer.md"; "/repo/c/REVIEWER.md"]%string
          ∨ candidates = ["/repo/c/REVIEWER.md"; "/repo/a/reviewer.md"]%string) as Hc.
  { vm_compute. auto. }
  destruct Hc as [-> | ->]; (split; [done|]); repeat split;
    try (apply (bool_decide_unpack _); vm_compute; exact I).
Qed.

(** ** The rescue tool loses no file *)

Lemma rebase_inj_files t src dst k1 k2 :
  Fs.files t !! src = None → Fs.nonempty_dir t dst = false →
  is_Some (Fs.files t !! k1) → is_Some (Fs.files t !! k2) →
  Fs.rebase src dst k1 = Fs.rebase src dst k2 → k1 = k2.
Proof.
  intros Hsrc Hempty Hk1 Hk2.
  assert (∀ k r, is_Some (Fs.files t !! k) → k = dst ++ r → r = []) as Hin.
  { intros k r [c Hc] ->. destruct r as [|n r]; [done|].
    apply bool_decide_eq_false in Hempty. exfalso. apply Hempty.
    apply Exists_exists. exists (dst ++ n :: r). split.
    - apply elem_of_app. left. apply list_elem_of_fmap. exists (dst ++ n :: r, c).
      split; [done|]. by apply elem_of_map_to_list.
    - unfold Fs.inside. by rewrite (proj2 (strip_prefix_Some dst _ (n :: r)) eq_refl). }
  assert (∀ k r, is_Some (Fs.files t !! k) → Fs.strip_prefix src k = Some r → r ≠ []) as Hne.
  { intros k r [c Hc] Hs ->. apply strip_prefix_Some in Hs. rewrite app_nil_r in Hs.
    subst k. by rewrite Hsrc in Hc. }
  unfold Fs.rebase.
  destruct (Fs.strip_prefix src k1) as [r1|] eqn:H1,
           (Fs.strip_prefix src k2) as [r2|] eqn:H2; intros Heq.
  - apply app_inv_head in Heq as ->.
    apply strip_prefix_Some in H1, H2. by subst.
  - exfalso. apply (Hne _ _ Hk1 H1). by apply (Hin k2).
  - exfalso. apply (Hne _ _ Hk2 H2). by apply (Hin k1).
  - done.
Qed.

(** A rename to a place where no regular file is loses no content. *)
Lemma rename_keeps_contents t src dst t2 p c :
  Fs.files t !! dst = None →
  Fs.rename t src dst = inr t2 →
  Fs.files t !! p = Some c → ∃ p', Fs.files t2 !! p' = Some c.
Proof.
  intros Hdst Hr Hp. unfold Fs.rename in Hr.
  destruct (Fs.files t !! src) as [c0|] eqn:Hsrc.
  - case_bool_decide; [injection Hr as <-; eauto|].
    destruct (Fs.is_dir t dst); [done|].
    destruct (Fs.is_dir t (Fs.parent dst)); [|done]. injection Hr as <-. simpl.
    destruct (decide (p = src)) as [->|Hne].
    + exists dst. rewrite lookup_insert_eq. congruence.
    + exists p. rewrite lookup_insert_ne, lookup_delete_ne; [done..|].
      intros <-. by rewrite Hdst in Hp.
  - destruct (Fs.is_dir t src); [|done].
    case_bool_decide; [injection Hr as <-; eauto|].
    destruct (Fs.is_file t dst); [done|].
    destruct (Fs.inside src dst); [done|].
    destruct (Fs.nonempty_dir t dst) eqn:Hempty; [done|].
    destruct (Fs.is_dir t (Fs.parent dst)); [|done]. injection Hr as <-. simpl.
    exists (Fs.rebase src dst p). apply elem_of_list_to_map_1.
    + rewrite <- list_fmap_compose.
      apply NoDup_fmap_2_strong; [|apply NoDup_map_to_list].
      intros [k1 c1] [k2 c2] H1%elem_of_map_to_list H2%elem_of_map_to_list Heq.
      simpl in Heq. assert (k1 = k2) as ->
        by (eapply (rebase_inj_files t src dst); eauto).
      congruence.
    + apply list_elem_of_fmap. exists (p, c). split; [done|]. by apply elem_of_map_to_list.
Qed.

Lemma rescue_step_keeps_contents cwd index st to st' p c :
  to ≠ ""%string →
  Rescue.step cwd index st to = inr st' →
  Fs.files (Rescue.tree st) !! p = Some c →
  ∃ p', Fs.files (Rescue.tree st') !! p' = Some c.
Proof.
  intros Hto Hstep Hp. unfold Rescue.step in Hstep.
  destruct (Fs.existsSync cwd (Rescue.tree st) to) eqn:Hex.
  { injection Hstep as <-. eauto. }
  destruct (default [] (index !! _)) as [|cand [|??]]; try (injection Hstep as <-; eauto).
  destruct (Fs.mkdirSync cwd (Rescue.tree st) (Path.dirname to)) as [e|t1] eqn:Hmk; [done|].
  apply mkdir_p_made in Hmk as (Hfiles & _ & _).
  destruct (Fs.renameSync cwd t1 cand to) as [e|t2] eqn:Hrn; injection Hstep as <-; simpl.
  - rewrite Hfiles. eauto.
  - destruct (existsSync_false _ _ _ Hto Hex) as [Hnone _].
    rewrite <- Hfiles in Hnone, Hp. eapply rename_keeps_contents; eauto.
Qed.

Lemma rescue_loop_keeps_contents cwd index want st :
  Forall (λ to, to ≠ ""%string) want →
  ∀ p c, Fs.files (Rescue.tree st) !! p = Some c →
  ∃ p', Fs.files (Rescue.tree (match Rescue.loop cwd index want st with
                               | inr st' => st'
                               | inl (_, st') => st'
                               end)) !! p' = Some c.
Proof.
  intros Hwant. revert st. induction Hwant as [|to want Hto _ IH]; intros st p c Hp.
  { simpl. eauto. }
  cbn [Rescue.loop]. destruct (Rescue.step cwd index st to) as [e|st1] eqn:Hstep; [eauto|].
  destruct (rescue_step_keeps_contents _ _ _ _ _ _ _ Hto Hstep Hp) as (p1 & Hp1).
  by apply (IH st1 p1 c).
Qed.

(** X11. The rescue loop loses no file.  For wanted paths that are plain
    path strings (without [.] or [..] and without a slash at the end),
    whatever the index holds and however the loop ends, by its last turn or
    by an exception of [mkdirSync], every content that was in a regular
    file of the tree before the loop is in a regular file of the tree
    after it: where it was, or where a rescue has moved it. *)
Theorem rescue_loses_no_file
    (cwd : list string) (index : gmap string (list string))
    (want : list string) (st : Rescue.state) (p : list string) (c : string) :
  Forall (λ to, plain_path to = true) want →
  Fs.files (Rescue.tree st) !! p = Some c →
  ∃ p', Fs.files (Rescue.tree (loop_end (Rescue.loop cwd index want st))) !! p' = Some c.
Proof.
  intros Hplain Hp.
  assert (Forall (λ to, to ≠ ""%string) want) as Hne.
  { eapply Forall_impl; [exact Hplain|]. intros to Hto. by apply plain_path_nonempty. }
  exact (rescue_loop_keeps_contents cwd index want st Hne p c Hp).
Qed.

(** The single file [x.md], wanted as [p/x.md] and as [q/x.md]: the first
    turn moves it, the rename of the second fails, and the content [X] is
    still in a file. *)
Lemma rescue_loses_no_file_witness :
  let cwd := ["repo"%string] in
  let st := Rescue.State Demo.tree_single 0 0 0 [] in
  let want := ["p/x.md"; "q/x.md"]%string in
  Forall (λ to, plain_path to = true) want
  ∧ Fs.files Demo.tree_single !! ["repo"; "x.md"]%string = Some "X"%string
  ∧ Fs.files (Rescue.tree (loop_end (Rescue.loop cwd (Rescue.scan cwd Demo.tree_single)
                                       want st))) !! ["repo"; "x.md"]%string = None
  ∧ ∃ p', Fs.files (Rescue.tree (loop_end (Rescue.loop cwd (Rescue.scan cwd Demo.tree_single)
                                             want st))) !! p' = Some "X"%string.
Proof.
  intros cwd st want.
  assert (Forall (λ to, plain_path to = true) want) as H1 by (repeat constructor).
  assert (Fs.files Demo.tree_single !! ["repo"; "x.md"]%string = Some "X"%string) as H2
    by (vm_compute; reflexivity).
  split; [exact H1|]. split; [exact H2|]. split; [vm_compute; reflexivity|].
  exact (rescue_loses_no_file cwd (Rescue.scan cwd Demo.tree_single) want st _ _ H1 H2).
Defined.

(** ** The counters of the rescue tool *)

Lemma rescue_step_counts cwd index st to st' :
  Rescue.step cwd index st to = inr st' →
  Rescue.moved st ≤ Rescue.moved st' ∧ Rescue.missing st ≤ Rescue.missing st'
  ∧ Rescue.skipped st ≤ Rescue.skipped st'
  ∧ Rescue.moved st' + Rescue.missing st' + Rescue.skipped st'
    ≤ S (Rescue.moved st + Rescue.missing st + Rescue.skipped st)
  ∧ length (Rescue.log st) ≤ length (Rescue.log st').
Proof.
  unfold Rescue.step.
  destruct (Fs.existsSync _ _ _); [intros [= <-]; simpl; lia|].
  destruct (default [] (index !! _)) as [|cand [|??]].
  - intros [= <-]. simpl. rewrite length_app. simpl. lia.
  - destruct (Fs.mkdirSync _ _ _); [done|].
    destruct (Fs.renameSync _ _ _ _); intros [= <-]; cbn [Rescue.moved Rescue.missing
      Rescue.skipped Rescue.log]; rewrite length_app; lia.
  - intros [= <-]. cbn [Rescue.moved Rescue.missing Rescue.skipped Rescue.log].
    rewrite !length_app. lia.
Qed.

(** X12. The counters of the rescue loop only grow, and each wanted path
    adds at most one to one of them: when the loop ends, [moved], [missing]
    and [skipped] together have grown by at most the number of wanted
    paths (the paths they leave out are the ambiguous ones and the failed
    renames). *)
Theorem rescue_counters_are_bounded
    (cwd : list string) (index : gmap string (list string))
    (want : list string) (st st' : Rescue.state) :
  Rescue.loop cwd index want st = inr st' →
  Rescue.moved st ≤ Rescue.moved st' ∧ Rescue.missing st ≤ Rescue.missing st'
  ∧ Rescue.skipped st ≤ Rescue.skipped st'
  ∧ Rescue.moved st' + Rescue.missing st' + Rescue.skipped st'
    ≤ Rescue.moved st + Rescue.missing st + Rescue.skipped st + length want.
Proof.
  revert st. induction want as [|to want IH]; intros st; cbn [Rescue.loop].
  { intros [= <-]. simpl. lia. }
  destruct (Rescue.step cwd index st to) as [e|st1] eqn:Hstep; [done|].
  intros Hloop. apply IH in Hloop. apply rescue_step_counts in Hstep. simpl. lia.
Qed.

(** The two wanted paths of the single [x.md]: one is moved, the other
    fails, and the counters end at 1 of 2. *)
Lemma rescue_counters_are_bounded_witness :
  let cwd := ["repo"%string] in
  let st' := Rescue.State Cases.tree_single_both 1 0 0
               ["mv /repo/x.md -> p/x.md";
                "(warn) move failed /repo/x.md -> q/x.md: ENOENT: no such file or directory, rename '/repo/x.md' -> 'q/x.md'"]%string in
  Rescue.loop cwd (Rescue.scan cwd Demo.tree_single) ["p/x.md"; "q/x.md"]%string
    (Rescue.State Demo.tree_single 0 0 0 []) = inr st'
  ∧ Rescue.moved st' + Rescue.missing st' + Rescue.skipped st' ≤ 0 + 0 + 0 + 2.
Proof.
  intros cwd st'.
  assert (Rescue.loop cwd (Rescue.scan cwd Demo.tree_single) ["p/x.md"; "q/x.md"]%string
            (Rescue.State Demo.tree_single 0 0 0 []) = inr st') as H
    by (vm_compute; reflexivity).
  split; [exact H|].
  exact (proj2 (proj2 (proj2 (rescue_counters_are_bounded _ _ _ _ _ H)))).
Defined.

(** ** The move loop: one line per move *)

Lemma move_one_line cwd t m :
  ∃ line, (LintCli.move_one cwd t m).2 = [line] ∧ is_move_line line.
Proof.
  unfold LintCli.move_one, is_move_line. cbv zeta.
  destruct (Fs.existsSync cwd t (Lint.from m)).
  - destruct (Fs.renameSync cwd t (Lint.from m) (Lint.to m)); eexists; (split; [reflexivity|]).
    + right; left. cbv beta zeta. apply startsWith_app.
    + left. apply startsWith_app.
  - destruct (Fs.existsSync cwd t (Path.basename (Lint.from m))).
    + destruct (Fs.renameSync cwd t _ (Lint.to m)); eexists; (split; [reflexivity|]).
      * right; left. cbv beta zeta. apply startsWith_app.
      * left. apply startsWith_app.
    + eexists. split; [reflexivity|]. right; right. apply startsWith_app.
Qed.

Lemma apply_moves_lines cwd ms t log :
  ∃ lines, (LintCli.apply_moves cwd ms t log).1.1 = log ++ lines
    ∧ Forall is_move_line lines
    ∧ ((LintCli.apply_moves cwd ms t log).2 = Done ∧ length lines = length ms
       ∨ (∃ what, (LintCli.apply_moves cwd ms t log).2 = Uncaught what)
         ∧ length lines < length ms).
Proof.
  revert t log. induction ms as [|m ms IH]; intros t log; cbn [LintCli.apply_moves].
  { exists []. rewrite app_nil_r. split; [done|]. split; [done|]. by left. }
  destruct (Fs.mkdirSync cwd t (Path.dirname (Lint.to m))) as [e|t1].
  { exists []. rewrite app_nil_r. split; [done|]. split; [done|]. right.
    split; [eauto|]. simpl. lia. }
  destruct (move_one_line cwd t1 m) as (line & Hline & Hshape).
  destruct (LintCli.move_one cwd t1 m) as [t2 lines1]. cbn [snd] in Hline. subst lines1.
  destruct (IH t2 (log ++ [line])) as (lines & Hlog & Hall & Hend).
  exists (line :: lines). rewrite Hlog, <- app_assoc. split; [done|].
  split; [by constructor|]. simpl. destruct Hend as [[-> ->]|[Hu Hlt]]; [by left|right].
  split; [done|]. lia.
Qed.

(** A run of the loop that an exception ends has stopped at a move whose
    [mkdirSync] has thrown, the moves before it done. *)
Lemma apply_moves_stops cwd ms t log out t' what :
  LintCli.apply_moves cwd ms t log = (out, t', Uncaught what) →
  ∃ pre m post e,
    ms = pre ++ m :: post
    ∧ LintCli.apply_moves cwd pre t log = (out, t', Done)
    ∧ Fs.mkdirSync cwd t' (Path.dirname (Lint.to m)) = inl e
    ∧ what = (Fs.describe e +:+ ", mkdir '" +:+ Path.dirname (Lint.to m) +:+ "'")%string.
Proof.
  revert t log. induction ms as [|m ms IH]; intros t log; cbn [LintCli.apply_moves]; [done|].
  destruct (Fs.mkdirSync cwd t (Path.dirname (Lint.to m))) as [e|t1] eqn:Hmk.
  - intros [= <- <- <-]. by exists [], m, ms, e.
  - destruct (LintCli.move_one cwd t1 m) as [t2 lines] eqn:Hone.
    intros (pre & m' & post & e & -> & Hpre & Hmk' & ->)%IH.
    exists (m :: pre), m', post, e. split; [done|]. split; [|done].
    cbn [LintCli.apply_moves]. by rewrite Hmk, Hone.
Qed.

(** X13. The move loop prints exactly one line for each move it reaches,
    an [mv], a [(warn) move failed] or a [(skip)] line, and a rename that
    fails does not end it.  A loop that ends normally has printed one
    line per move of the list.  The only other way it ends is by the
    exception of a [mkdirSync]: at a move whose directory cannot be made,
    after one line for each of the moves before it.  In a turn whose
    [mkdirSync] succeeds, a [renameSync] that throws (of the declared
    source, or of its basename) leaves the tree as it is, prints the
    [(warn) move failed] line, and the loop goes on with the next move. *)
Theorem move_loop_prints_one_line_per_move
    (cwd : list string) (ms : list Lint.move) (t : Fs.tree) (log : list string) :
  (∃ lines, (LintCli.apply_moves cwd ms t log).1.1 = log ++ lines
     ∧ Forall is_move_line lines
     ∧ match (LintCli.apply_moves cwd ms t log).2 with
       | Done => length lines = length ms
       | Uncaught what =>
           ∃ pre m post e,
             ms = pre ++ m :: post ∧ length lines = length pre
             ∧ LintCli.apply_moves cwd pre t log
               = (log ++ lines, (LintCli.apply_moves cwd ms t log).1.2, Done)
             ∧ Fs.mkdirSync cwd (LintCli.apply_moves cwd ms t log).1.2
                 (Path.dirname (Lint.to m)) = inl e
             ∧ what = (Fs.describe e +:+ ", mkdir '" +:+ Path.dirname (Lint.to m) +:+ "'")%string
       | Exit _ => False
       end)
  ∧ (∀ m t1, Fs.mkdirSync cwd t (Path.dirname (Lint.to m)) = inr t1 →
       ∃ line,
         LintCli.apply_moves cwd (m :: ms) t log
         = LintCli.apply_moves cwd ms (LintCli.move_one cwd t1 m).1 (log ++ [line])
         ∧ is_move_line line
         ∧ (∀ e, Fs.existsSync cwd t1 (Lint.from m) = true →
                 Fs.renameSync cwd t1 (Lint.from m) (Lint.to m) = inl e →
                 (LintCli.move_one cwd t1 m).1 = t1
                 ∧ Js.startsWith line "(warn) move failed " = true)
         ∧ (∀ e, Fs.existsSync cwd t1 (Lint.from m) = false →
                 Fs.existsSync cwd t1 (Path.basename (Lint.from m)) = true →
                 Fs.renameSync cwd t1 (Path.basename (Lint.from m)) (Lint.to m) = inl e →
                 (LintCli.move_one cwd t1 m).1 = t1
                 ∧ Js.startsWith line "(warn) move failed " = true)).
Proof.
  split.
  - destruct (apply_moves_lines cwd ms t log) as (lines & Hlog & Hall & Hend).
    exists lines. split; [done|]. split; [done|].
    destruct (LintCli.apply_moves cwd ms t log) as [[out t'] s] eqn:Hrun.
    cbn [fst snd] in *. destruct s as [|code|what].
    + by destruct Hend as [[_ ?]|[(w & Hw) _]].
    + by destruct Hend as [[? _]|[(w & Hw) _]].
    + apply apply_moves_stops in Hrun as (pre & m & post & e & -> & Hpre & Hmk & ->).
      exists pre, m, post, e. split; [done|].
      destruct (apply_moves_lines cwd pre t log) as (lines' & Hlog' & _ & Hend').
      rewrite Hpre in Hlog', Hend'. cbn [fst snd] in *.
      destruct Hend' as [[_ Hlen]|[(w & Hw) _]]; [|done].
      rewrite Hlog in Hlog'. apply app_inv_head in Hlog' as ->.
      split; [done|]. by rewrite <- Hlog.
  - intros m t1 Hmk. cbn [LintCli.apply_moves]. rewrite Hmk.
    destruct (move_one_line cwd t1 m) as (line & Hline & Hshape).
    exists line. split.
    { destruct (LintCli.move_one cwd t1 m) as [t2 ls]. cbn [fst snd] in *. by subst. }
    split; [done|].
    unfold LintCli.move_one in *. split.
    + intros e Hex Hrn. rewrite Hex, Hrn in *. cbn [fst snd] in *.
      injection Hline as <-. split; [done|]. cbv beta zeta. apply startsWith_app.
    + intros e Hex Hbase Hrn. rewrite Hex, Hbase, Hrn in *. cbn [fst snd] in *.
      injection Hline as <-. split; [done|]. cbv beta zeta. apply startsWith_app.
Qed.

(** Two moves, the first onto a directory: its rename fails, the warning
    is printed, and the second move is made. *)
Example failed_rename_does_not_stop_the_loop :
  let t := Demo.tree_of [(["repo"; "x.md"], "X"); (["repo"; "y.md"], "Y")]%string
             [["repo"; "d"]]%string in
  ∃ t', LintCli.apply_moves ["repo"%string]
          [Lint.Move "x.md" "d" "x"; Lint.Move "y.md" "e/y.md" "y"] t []
        = (["(warn) move failed x.md -> d: EISDIR: illegal operation on a directory, rename 'x.md' -> 'd'";
            "mv y.md -> e/y.md"]%string, t', Done)
      ∧ Fs.files t' !! ["repo"; "x.md"]%string = Some "X"%string
      ∧ Fs.files t' !! ["repo"; "e"; "y.md"]%string = Some "Y"%string.
Proof. vm_compute. eexists. repeat split; reflexivity. Qed.

(** ** How the lint tool ends *)



(** ** [--fix] without [--apply-moves] *)

Lemma writeFile_frame cwd t p data t' :
  Fs.writeFileSync cwd t p data = inr t' →
  Fs.files t' = <[Path.resolve cwd p := data]> (Fs.files t) ∧ Fs.dirs t' = Fs.dirs t.
Proof.
  unfold Fs.writeFileSync. destruct (Fs.is_dir t _); [done|].
  destruct (Fs.is_dir t _); [|done]. by intros [= <-].
Qed.

(** X15. A [--fix] run without [--apply-moves] that reaches its end has
    written two files and nothing else: the registry holds the document
    the [yaml] package writes for the result, the backup (when it is
    another file) holds the text that was read, every other file is
    untouched, and no directory has been made and no file moved. *)
Theorem fix_alone_writes_two_files (h : host) (args : list string) (t : Fs.tree) :
  "--fix"%string ∈ args → "--apply-moves"%string ∉ args →
  ending (LintCli.main h args t) = Done →
  ∃ ymlPath raw data y,
    Fs.readFileSync (cwd h) t ymlPath = inr raw
    ∧ LintCli.load h raw = Some data ∧ yaml h = Some y
    ∧ let after := tree_after (LintCli.main h args t) in
      let yml := Path.resolve (cwd h) ymlPath in
      let bak := Path.resolve (cwd h) (ymlPath +:+ ".bak") in
      Fs.files after !! yml = Some (stringify y (Lint.result data))
      ∧ (bak ≠ yml → Fs.files after !! bak = Some raw)
      ∧ (∀ q, q ≠ yml → q ≠ bak → Fs.files after !! q = Fs.files t !! q)
      ∧ Fs.dirs after = Fs.dirs t.
Proof.
  intros Hfix Hno. unfold LintCli.main. destruct args as [|a args']; [done|].
  destruct (truthy _) as [ymlPath|]; [|done].
  destruct (Fs.readFileSync (cwd h) t ymlPath) as [e|raw] eqn:Hread; [done|].
  destruct (LintCli.load h raw) as [data|] eqn:Hload; [|done].
  rewrite bool_decide_true by done. rewrite (bool_decide_false (_ ∈ _)) by done.
  unfold LintCli.write_and_apply.
  destruct (Fs.writeFileSync (cwd h) t (ymlPath +:+ ".bak") raw) as [e|t1] eqn:Hw1; [done|].
  destruct (yaml h) as [y|] eqn:Hy; [|done].
  destruct (Fs.writeFileSync (cwd h) t1 ymlPath _) as [e|t2] eqn:Hw2; [done|].
  apply writeFile_frame in Hw1 as [Hf1 Hd1]. apply writeFile_frame in Hw2 as [Hf2 Hd2].
  destruct (Lint.moves (Lint.process data)) as [|m ms]; intros _;
    exists ymlPath, raw, data, y; (split; [done|]); (split; [done|]); (split; [done|]);
    cbv zeta; cbn [tree_after]; rewrite Hf2, Hf1, Hd2, Hd1;
    (split; [apply lookup_insert_eq|]);
    (split; [intros Hne; by rewrite lookup_insert_ne, lookup_insert_eq|]);
    (split; [|done]); intros q Hq1 Hq2; by rewrite !lookup_insert_ne.
Qed.

(** A [--fix] run on the tree of scenario B: the registry is rewritten,
    the backup holds the old text and [foo.md] stays where it was. *)
Lemma fix_alone_writes_two_files_witness :
  let args := ["--fix"; "improved-index.yml"]%string in
  let after := tree_after (LintCli.main (Demo.host_of Demo.doc_foo) args Demo.tree_both) in
  ("--fix"%string ∈ args) ∧ ("--apply-moves"%string ∉ args)
  ∧ ending (LintCli.main (Demo.host_of Demo.doc_foo) args Demo.tree_both) = Done
  ∧ Fs.dirs after = Fs.dirs Demo.tree_both
  ∧ Fs.files after !! ["repo"; "foo.md"]%string = Some "declared"%string
  ∧ Fs.files after !! ["repo"; "improved-index.yml.bak"]%string = Some "registry"%string.
Proof.
  intros args after.
  assert ("--fix"%string ∈ args) as H1 by left.
  assert ("--apply-moves"%string ∉ args) as H2.
  { intros [Heq|Hin]%elem_of_cons; [discriminate|].
    apply list_elem_of_singleton in Hin. discriminate. }
  assert (ending (LintCli.main (Demo.host_of Demo.doc_foo) args Demo.tree_both) = Done) as H3
    by (vm_compute; reflexivity).
  split; [exact H1|]. split; [exact H2|]. split; [exact H3|].
  destruct (fix_alone_writes_two_files (Demo.host_of Demo.doc_foo) args Demo.tree_both H1 H2 H3)
    as (ymlPath & raw & data & y & _ & _ & _ & _ & _ & _ & Hdirs).
  split; [exact Hdirs|]. vm_compute. split; reflexivity.
Defined.

(** ** Runs of the two loops on a source in place *)

(** The move of scenario B on a tree that holds [foo.md] and no category
    directory. *)
Lemma move_of_present_source_goes_through_witness :
  let cwd := ["repo"%string] in
  let m := Lint.Move "foo.md" "01-core-development/foo.md" "foo" in
  Fs.files Cases.tree_declared !! Path.resolve cwd (Lint.from m) = Some "declared"%string
  ∧ Fs.is_dir Cases.tree_declared (Path.resolve cwd (Lint.to m)) = false
  ∧ ∃ t2, LintCli.apply_moves cwd [m] Cases.tree_declared []
          = (["mv foo.md -> 01-core-development/foo.md"%string], t2, Done)
        ∧ Fs.files t2 !! ["repo"; "01-core-development"; "foo.md"]%string
          = Some "declared"%string
        ∧ Fs.files t2 !! ["repo"; "foo.md"]%string = None.
Proof.
  intros cwd m.
  assert (Fs.files Cases.tree_declared !! Path.resolve cwd (Lint.from m)
          = Some "declared"%string) as Hc by (vm_compute; reflexivity).
  assert (Fs.is_dir Cases.tree_declared (Path.resolve cwd (Lint.to m)) = false) as Hnd
    by (vm_compute; reflexivity).
  split; [exact Hc|]. split; [exact Hnd|].
  assert (Fs.mkdirSync cwd Cases.tree_declared (Path.dirname (Lint.to m))
          = inr Cases.tree_declared_dir) as Hmk by (vm_compute; reflexivity).
  pose proof (move_of_present_source_goes_through cwd m [] Cases.tree_declared []
                "declared") as H.
  rewrite Hmk in H.
  destruct H as (t2 & Hrun & Hto & Hfrom & _);
    [reflexivity|reflexivity|exact Hc|discriminate|exact Hnd|].
  exists t2. split; [exact Hrun|]. split; [exact Hto|exact Hfrom].
Defined.

(** The rescue of [p/x.md] from the single [x.md]. *)
Lemma unique_candidate_in_place_is_moved_witness :
  let cwd := ["repo"%string] in
  let index := Rescue.scan cwd Demo.tree_single in
  Fs.existsSync cwd Demo.tree_single "p/x.md" = false
  ∧ index !! Js.toLowerCase (Path.basename "p/x.md") = Some ["/repo/x.md"%string]
  ∧ Fs.files Demo.tree_single !! Path.resolve cwd "/repo/x.md" = Some "X"%string
  ∧ ∃ t2, Rescue.step cwd index (Rescue.State Demo.tree_single 0 0 0 []) "p/x.md"
          = inr (Rescue.State t2 1 0 0 ["mv /repo/x.md -> p/x.md"%string])
        ∧ Fs.files t2 !! Path.resolve cwd "p/x.md" = Some "X"%string.
Proof.
  intros cwd index.
  assert (Fs.existsSync cwd Demo.tree_single "p/x.md" = false) as H1
    by (vm_compute; reflexivity).
  assert (index !! Js.toLowerCase (Path.basename "p/x.md") = Some ["/repo/x.md"%string]) as H2
    by (vm_compute; reflexivity).
  assert (Fs.files Demo.tree_single !! Path.resolve cwd "/repo/x.md" = Some "X"%string) as H3
    by (vm_compute; reflexivity).
  split; [exact H1|]. split; [exact H2|]. split; [exact H3|].
  assert (Fs.mkdirSync cwd Demo.tree_single (Path.dirname "p/x.md")
          = inr Demo.tree_single_dir) as Hmk by (vm_compute; reflexivity).
  pose proof (unique_candidate_in_place_is_moved cwd index
                (Rescue.State Demo.tree_single 0 0 0 []) "p/x.md" "/repo/x.md" "X") as H.
  cbn [Rescue.tree] in H. rewrite Hmk in H.
  destruct H as (t2 & Hstep & Hto & _); [reflexivity|reflexivity|exact H1|exact H2|exact H3|].
  exists t2. split; [exact Hstep|exact Hto].
Defined.

(** ** The rescue loop on a reconciled tree *)

(** X16. On a tree where every wanted path exists the rescue loop does
    nothing but count: whatever the index holds, it makes no directory,
    renames nothing and prints nothing, and [skipped] grows by the number
    of wanted paths. *)
Theorem rescue_of_reconciled_tree_only_counts
    (cwd : list string) (index : gmap string (list string))
    (want : list string) (st : Rescue.state) :
  Forall (λ to, Fs.existsSync cwd (Rescue.tree st) to = true) want →
  Rescue.loop cwd index want st
  = inr (Rescue.State (Rescue.tree st) (Rescue.moved st) (Rescue.missing st)
           (Rescue.skipped st + length want) (Rescue.log st)).
Proof.
  intros Hall. revert st Hall. induction want as [|to want IH]; intros st Hall.
  { cbn [Rescue.loop length]. rewrite Nat.add_0_r. by destruct st. }
  apply Forall_cons in Hall as [Hto Hall]. cbn [Rescue.loop]. unfold Rescue.step.
  rewrite Hto. rewrite IH by done.
  cbn [Rescue.tree Rescue.moved Rescue.missing Rescue.skipped Rescue.log length].
  do 2 f_equal. lia.
Qed.

(** The tree of scenario B with the canonical file in place. *)
Lemma rescue_of_reconciled_tree_only_counts_witness :
  let cwd := ["repo"%string] in
  let st := Rescue.State Demo.tree_both 0 0 0 [] in
  Forall (λ to, Fs.existsSync cwd (Rescue.tree st) to = true)
    ["01-core-development/foo.md"%string]
  ∧ Rescue.loop cwd (Rescue.scan cwd Demo.tree_both) ["01-core-development/foo.md"%string] st
    = inr (Rescue.State Demo.tree_both 0 0 1 []).
Proof.
  intros cwd st.
  assert (Forall (λ to, Fs.existsSync cwd (Rescue.tree st) to = true)
            ["01-core-development/foo.md"%string]) as H.
  { repeat constructor. }
  split; [exact H|].
  exact (rescue_of_reconciled_tree_only_counts cwd (Rescue.scan cwd Demo.tree_both) _ st H).
Defined.
